(** * htmlquery: the XPath navigator over a parsed HTML tree

    A shallow embedding of [query.go].  The DOM is the pointer structure of
    [golang.org/x/net/html]: every [html.Node] lives at an address of a heap
    and refers to its parent, children and siblings through nullable
    pointers.  The navigator is the record [NodeNavigator]; its methods
    mutate the receiver and return a [bool], which is rendered here as a
    function returning the boolean together with the receiver's new value.
    A nil dereference, an index out of range and the explicit [panic] of
    [NodeType] are results of their own ([Panic]). *)

From Stdlib Require Import ZArith Lia.
From stdpp Require Import base option list gmap strings pretty.

Local Open Scope Z_scope.
#[local] Set Warnings "-register-all".

(** ** Pointers, results *)

(** A [*T] of the source: [None] is nil. *)
Definition addr := positive.
Definition ptr := option addr.

Inductive panic : Type :=
| NilDereference
| IndexOutOfRange
| PanicMsg (msg : string).

Inductive result (A : Type) : Type :=
| Ok (a : A)
| Panic (p : panic).
Arguments Ok {A} a.
Arguments Panic {A} p.

Global Instance result_ret : MRet result := @Ok.

Global Instance result_bind : MBind result := fun A B k r =>
  match r with
  | Ok a => k a
  | Panic p => Panic p
  end.

Global Instance result_fmap : FMap result := fun A B f r =>
  match r with
  | Ok a => Ok (f a)
  | Panic p => Panic p
  end.

(** ** The node model of [golang.org/x/net/html] *)

Module html.

(** [html.NodeType], a [uint32] with the exported constants of the package
    (numbered from 0 in this order); [UnknownNode c] stands for every other
    value [c] of the type. *)
Inductive NodeType : Type :=
| ErrorNode
| TextNode
| DocumentNode
| ElementNode
| CommentNode
| DoctypeNode
| RawNode
| UnknownNode (code : N).

Record Attribute : Type := mkAttribute {
  Namespace : string;
  Key : string;
  Val : string
}.

(** [html.Node]: the five structural links, the kind, the data and the
    attributes.  ([DataAtom] and [Namespace] are never read by the
    package under study.) *)
Record Node : Type := mkNode {
  Parent : ptr;
  FirstChild : ptr;
  LastChild : ptr;
  PrevSibling : ptr;
  NextSibling : ptr;
  Type_ : NodeType;
  Data : string;
  Attr : list Attribute
}.

Global Instance NodeType_eq_dec : EqDecision NodeType.
Proof. solve_decision. Defined.

Global Instance Attribute_eq_dec : EqDecision Attribute.
Proof. solve_decision. Defined.

(** [fmt.Sprintf("%v", t)] of a [NodeType], which is a [uint32]. *)
Definition NodeType_code (t : NodeType) : string :=
  match t with
  | ErrorNode => "0"
  | TextNode => "1"
  | DocumentNode => "2"
  | ElementNode => "3"
  | CommentNode => "4"
  | DoctypeNode => "5"
  | RawNode => "6"
  | UnknownNode c => pretty c
  end.

End html.

(** The node categories of [github.com/antchfx/xpath]. *)
Module xpath.

Inductive NodeType : Type :=
| RootNode
| ElementNode
| AttributeNode
| TextNode
| CommentNode.

End xpath.

(** The heap holding the nodes of all documents. *)
Abbreviation heap := (gmap addr html.Node).

(** [*p] for a nullable pointer: nil panics.  Go's pointers never dangle; an
    address outside the heap is mapped to the same panic. *)
Definition deref (H : heap) (p : ptr) : result html.Node :=
  match p with
  | None => Panic NilDereference
  | Some a =>
      match H !! a with
      | Some n => Ok n
      | None => Panic NilDereference
      end
  end.

(** [s[i]] for a slice and a Go [int] index. *)
Definition index {A} (l : list A) (i : Z) : result A :=
  if decide (0 <= i) then
    match l !! Z.to_nat i with
    | Some x => Ok x
    | None => Panic IndexOutOfRange
    end
  else Panic IndexOutOfRange.

(** [len(s)] as a Go [int]. *)
Definition len {A} (l : list A) : Z := Z.of_nat (length l).

(** ** The navigator *)

(** [type NodeNavigator struct { root, curr *html.Node; attr int }].  The
    [attr] field is a Go [int]; it only ever changes by [attr++] below
    [len(curr.Attr) - 1] or by assignment, so no wrap-around is reachable
    and [Z] is exact. *)
Record NodeNavigator : Type := mkNav {
  root : ptr;
  curr : ptr;
  attr : Z
}.

Definition set_curr (h : NodeNavigator) (p : ptr) : NodeNavigator :=
  {| root := root h; curr := p; attr := attr h |}.

Definition set_attr (h : NodeNavigator) (i : Z) : NodeNavigator :=
  {| root := root h; curr := curr h; attr := i |}.

(** A value of the interface [xpath.NodeNavigator]: the nil interface, a
    [*NodeNavigator] (possibly a nil pointer of that type), or a navigator
    of some other concrete type. *)
Inductive Navigator : Type :=
| NilNavigator
| HtmlNavigator (p : option NodeNavigator)
| ForeignNavigator (tag : string).

(** [CreateXPathNavigator] *)
Definition CreateXPathNavigator (top : ptr) : NodeNavigator :=
  {| root := top; curr := top; attr := -1 |}.

(** [Current] *)
Definition Current (h : NodeNavigator) : ptr := curr h.

(** [NodeType] *)
Definition NodeType (H : heap) (h : NodeNavigator) : result xpath.NodeType :=
  n ← deref H (curr h);
  match html.Type_ n with
  | html.CommentNode => Ok xpath.CommentNode
  | html.TextNode => Ok xpath.TextNode
  | html.DocumentNode => Ok xpath.RootNode
  | html.ElementNode =>
      if decide (attr h <> -1) then Ok xpath.AttributeNode
      else Ok xpath.ElementNode
  | html.DoctypeNode => Ok xpath.RootNode
  | t => Panic (PanicMsg ("unknown HTML node type: " +:+ html.NodeType_code t))
  end.

(** [LocalName] *)
Definition LocalName (H : heap) (h : NodeNavigator) : result string :=
  n ← deref H (curr h);
  if decide (attr h <> -1) then
    a ← index (html.Attr n) (attr h); Ok (html.Key a)
  else Ok (html.Data n).

(** [Prefix] *)
Definition Prefix (h : NodeNavigator) : string := "".

(** [Copy]: [n := *h; return &n]. *)
Definition Copy (h : NodeNavigator) : NodeNavigator := h.

(** [MoveToRoot] *)
Definition MoveToRoot (h : NodeNavigator) : NodeNavigator :=
  set_curr h (root h).

(** [MoveToParent] *)
Definition MoveToParent (H : heap) (h : NodeNavigator)
  : result (bool * NodeNavigator) :=
  if decide (attr h <> -1) then Ok (true, set_attr h (-1))
  else
    n ← deref H (curr h);
    match html.Parent n with
    | Some node => Ok (true, set_curr h (Some node))
    | None => Ok (false, h)
    end.

(** [MoveToNextAttribute] *)
Definition MoveToNextAttribute (H : heap) (h : NodeNavigator)
  : result (bool * NodeNavigator) :=
  n ← deref H (curr h);
  if decide (attr h >= len (html.Attr n) - 1) then Ok (false, h)
  else Ok (true, set_attr h (attr h + 1)).

(** [MoveToChild] *)
Definition MoveToChild (H : heap) (h : NodeNavigator)
  : result (bool * NodeNavigator) :=
  if decide (attr h <> -1) then Ok (false, h)
  else
    n ← deref H (curr h);
    match html.FirstChild n with
    | Some node => Ok (true, set_curr h (Some node))
    | None => Ok (false, h)
    end.

(** [MoveToNext] *)
Definition MoveToNext (H : heap) (h : NodeNavigator)
  : result (bool * NodeNavigator) :=
  if decide (attr h <> -1) then Ok (false, h)
  else
    n ← deref H (curr h);
    match html.NextSibling n with
    | Some node => Ok (true, set_curr h (Some node))
    | None => Ok (false, h)
    end.

(** [MoveToPrevious] *)
Definition MoveToPrevious (H : heap) (h : NodeNavigator)
  : result (bool * NodeNavigator) :=
  if decide (attr h <> -1) then Ok (false, h)
  else
    n ← deref H (curr h);
    match html.PrevSibling n with
    | Some node => Ok (true, set_curr h (Some node))
    | None => Ok (false, h)
    end.

(** The [for] loop of [MoveToFirst]: follow [PrevSibling] until it is nil.
    The loop has no bound of its own; [fuel] counts its iterations and
    [None] says that the fuel ran out. *)
Fixpoint MoveToFirst_loop (fuel : nat) (H : heap) (h : NodeNavigator)
  : option (result NodeNavigator) :=
  match fuel with
  | O => None
  | S fuel' =>
      match deref H (curr h) with
      | Panic p => Some (Panic p)
      | Ok n =>
          match html.PrevSibling n with
          | None => Some (Ok h)
          | Some node => MoveToFirst_loop fuel' H (set_curr h (Some node))
          end
      end
  end.

(** [MoveToFirst] *)
Definition MoveToFirst (fuel : nat) (H : heap) (h : NodeNavigator)
  : option (result (bool * NodeNavigator)) :=
  if decide (attr h <> -1) then Some (Ok (false, h))
  else
    match deref H (curr h) with
    | Panic p => Some (Panic p)
    | Ok n =>
        match html.PrevSibling n with
        | None => Some (Ok (false, h))
        | Some _ =>
            match MoveToFirst_loop fuel H h with
            | None => None
            | Some (Panic p) => Some (Panic p)
            | Some (Ok h') => Some (Ok (true, h'))
            end
        end
    end.

(** [MoveTo]: the type assertion of [other] to [*NodeNavigator] fails on the
    nil interface and on every other concrete type; [node.root] on a nil
    [*NodeNavigator] panics. *)
Definition MoveTo (h : NodeNavigator) (other : Navigator)
  : result (bool * NodeNavigator) :=
  match other with
  | HtmlNavigator None => Panic NilDereference
  | HtmlNavigator (Some node) =>
      if decide (root node <> root h) then Ok (false, h)
      else Ok (true, {| root := root h; curr := curr node; attr := attr node |})
  | _ => Ok (false, h)
  end.

(** ** Tree projection helpers *)

(** Computations that may panic and, because they follow pointers through
    an arbitrary heap, may not return: [None] is "out of fuel". *)
Definition comp (A : Type) : Type := option (result A).

(** [for child := first; child != nil; child = child.NextSibling { body }]
    with the loop's state [s] threaded through [body]. *)
Fixpoint for_siblings {S : Type} (fuel : nat) (H : heap)
    (body : S -> ptr -> comp S) (s : S) (child : ptr) : comp S :=
  match fuel with
  | O => None
  | S fuel' =>
      match child with
      | None => Some (Ok s)
      | Some c =>
          match body s child with
          | None => None
          | Some (Panic p) => Some (Panic p)
          | Some (Ok s') =>
              match deref H child with
              | Panic p => Some (Panic p)
              | Ok cn => for_siblings fuel' H body s' (html.NextSibling cn)
              end
          end
      end
  end.

(** The closure [output] of [InnerText]; [buf] is the [bytes.Buffer] it
    writes to. *)
Fixpoint output (fuel : nat) (H : heap) (buf : string) (n : ptr)
  : comp string :=
  match fuel with
  | O => None
  | S fuel' =>
      match deref H n with
      | Panic p => Some (Panic p)
      | Ok nd =>
          match html.Type_ nd with
          | html.TextNode => Some (Ok (buf +:+ html.Data nd))
          | html.CommentNode => Some (Ok buf)
          | _ => for_siblings fuel' H (output fuel' H) buf (html.FirstChild nd)
          end
      end
  end.

(** [InnerText] *)
Definition InnerText (fuel : nat) (H : heap) (n : ptr) : comp string :=
  output fuel H "" n.

(** [SelectAttr]; the [range] loop stops at the first attribute with the
    key [name]. *)
Fixpoint SelectAttr_loop (attrs : list html.Attribute) (name : string)
  : string :=
  match attrs with
  | [] => ""
  | a :: attrs' =>
      if decide (html.Key a = name) then html.Val a
      else SelectAttr_loop attrs' name
  end.

Definition SelectAttr (H : heap) (n : ptr) (name : string) : result string :=
  match n with
  | None => Ok ""
  | Some _ => nd ← deref H n; Ok (SelectAttr_loop (html.Attr nd) name)
  end.

(** [Value] *)
Definition Value (fuel : nat) (H : heap) (h : NodeNavigator) : comp string :=
  match deref H (curr h) with
  | Panic p => Some (Panic p)
  | Ok n =>
      match html.Type_ n with
      | html.CommentNode => Some (Ok (html.Data n))
      | html.ElementNode =>
          if decide (attr h <> -1) then
            Some (a ← index (html.Attr n) (attr h); Ok (html.Val a))
          else InnerText fuel H (curr h)
      | html.TextNode => Some (Ok (html.Data n))
      | _ => Some (Ok "")
      end
  end.

Section Serialization.

(** [html.Render(w, n)] of [golang.org/x/net/html], which is not part of
    the package: it appends the markup of [n] to the writer.  Its error
    result is dropped by [OutputHTML]. *)
Variable Render : heap -> string -> ptr -> comp string.

(** [OutputHTML] *)
Definition OutputHTML (fuel : nat) (H : heap) (n : ptr) (self : bool)
  : comp string :=
  if self then Render H "" n
  else
    match deref H n with
    | Panic p => Some (Panic p)
    | Ok nd => for_siblings fuel H (Render H) "" (html.FirstChild nd)
    end.

End Serialization.

(** ** The query facade *)

Section Facade.

(** The engine of [github.com/antchfx/xpath], which is not part of the
    package: [xpath.Compile] returns a compiled expression or an error,
    and [exp.Select] an iterator over navigator positions.  The iterator
    is the sequence of positions it has yet to deliver: [MoveNext] takes
    the next one, [Current] returns it. *)
Variable Expr : Type.
Variable Compile : string -> Expr + string.
Variable Select : Expr -> heap -> NodeNavigator -> list Navigator.

(** The expression [t.Current()] asserted to be a [*NodeNavigator], then
    its field [curr]: a position of another type fails the type
    assertion, a nil [*NodeNavigator] fails the field access. *)
Definition unwrap (pos : Navigator) : result ptr :=
  match pos with
  | HtmlNavigator (Some nav) => Ok (curr nav)
  | HtmlNavigator None => Panic NilDereference
  | _ => Panic (PanicMsg "interface conversion")
  end.

(** The loop [for t.MoveNext() { elems = append(elems, ...) }]. *)
Fixpoint Find_loop (t : list Navigator) (elems : list ptr)
  : result (list ptr) :=
  match t with
  | [] => Ok elems
  | pos :: t' => n ← unwrap pos; Find_loop t' (elems ++ [n])
  end.

(** [Find]: the pair of the source's two results. *)
Definition Find (H : heap) (top : ptr) (expr : string)
  : result (list ptr * option string) :=
  match Compile expr with
  | inr err => Ok ([], Some err)
  | inl exp =>
      let t := Select exp H (CreateXPathNavigator top) in
      elems ← Find_loop t []; Ok (elems, None)
  end.

(** [FindOne] *)
Definition FindOne (H : heap) (top : ptr) (expr : string)
  : result (ptr * option string) :=
  match Compile expr with
  | inr err => Ok (None, Some err)
  | inl exp =>
      let t := Select exp H (CreateXPathNavigator top) in
      match t with
      | pos :: _ => elem ← unwrap pos; Ok (elem, None)
      | [] => Ok (None, None)
      end
  end.

(** The loop of [FindEach]; the callback acts on a state [St] of the
    caller's. *)
Fixpoint FindEach_loop {St : Type} (t : list Navigator) (i : Z)
    (cb : Z -> ptr -> St -> St) (st : St) : result St :=
  match t with
  | [] => Ok st
  | pos :: t' => n ← unwrap pos; FindEach_loop t' (i + 1) cb (cb i n st)
  end.

(** [FindEach] *)
Definition FindEach {St : Type} (H : heap) (top : ptr) (expr : string)
    (cb : Z -> ptr -> St -> St) (st : St) : result (St * option string) :=
  match Compile expr with
  | inr err => Ok (st, Some err)
  | inl exp =>
      let t := Select exp H (CreateXPathNavigator top) in
      st' ← FindEach_loop t 0 cb st; Ok (st', None)
  end.

End Facade.

(** The positions the engine delivers for navigators of this package. *)
Definition positions (navs : list NodeNavigator) : list Navigator :=
  map (fun n => HtmlNavigator (Some n)) navs.

(** The calls [cb(i, node)] for the nodes [nodes], counted from [k]. *)
Definition callbacks {St : Type} (cb : Z -> ptr -> St -> St) (k : nat)
    (nodes : list ptr) (st : St) : St :=
  foldl (fun s p => cb (Z.of_nat p.1) p.2 s) st
        (zip (seq k (length nodes)) nodes).

(** ** Sequences of navigator calls *)

(** The move operations of the navigator contract, as the engine issues
    them; [OpMoveToFirst] carries the fuel of its loop. *)
Inductive op : Type :=
| OpMoveToRoot
| OpMoveToParent
| OpMoveToNextAttribute
| OpMoveToChild
| OpMoveToFirst (fuel : nat)
| OpMoveToNext
| OpMoveToPrevious
| OpMoveTo (other : Navigator)
| OpCopy.

(** The receiver after one call (the boolean is dropped). *)
Definition exec (H : heap) (o : op) (h : NodeNavigator) : comp NodeNavigator :=
  match o with
  | OpMoveToRoot => Some (Ok (MoveToRoot h))
  | OpMoveToParent => Some (snd <$> MoveToParent H h)
  | OpMoveToNextAttribute => Some (snd <$> MoveToNextAttribute H h)
  | OpMoveToChild => Some (snd <$> MoveToChild H h)
  | OpMoveToFirst fuel =>
      match MoveToFirst fuel H h with
      | None => None
      | Some r => Some (snd <$> r)
      end
  | OpMoveToNext => Some (snd <$> MoveToNext H h)
  | OpMoveToPrevious => Some (snd <$> MoveToPrevious H h)
  | OpMoveTo other => Some (snd <$> MoveTo h other)
  | OpCopy => Some (Ok (Copy h))
  end.

Fixpoint run (H : heap) (ops : list op) (h : NodeNavigator)
  : comp NodeNavigator :=
  match ops with
  | [] => Some (Ok h)
  | o :: ops' =>
      match exec H o h with
      | Some (Ok h') => run H ops' h'
      | r => r
      end
  end.

(** [n] successive calls of [MoveToNextAttribute], with their results. *)
Fixpoint MoveToNextAttribute_times (n : nat) (H : heap) (h : NodeNavigator)
  : result (list bool * NodeNavigator) :=
  match n with
  | O => Ok ([], h)
  | S n' =>
      r ← MoveToNextAttribute H h;
      rs ← MoveToNextAttribute_times n' H r.2;
      Ok (r.1 :: rs.1, rs.2)
  end.

(** The invariant of the cursor: an attribute position is a position on an
    element. *)
Definition attr_invariant (H : heap) (h : NodeNavigator) : Prop :=
  attr h <> -1 ->
  exists nd, deref H (curr h) = Ok nd /\ html.Type_ nd = html.ElementNode.

(** ** Documents as trees *)

(** A node with its subtree, children in document order. *)
Inductive tree : Type :=
| Tree (ty : html.NodeType) (data : string) (attrs : list html.Attribute)
       (kids : list tree).

Definition kind (t : tree) : html.NodeType :=
  match t with Tree ty _ _ _ => ty end.

Definition children (t : tree) : list tree :=
  match t with Tree _ _ _ kids => kids end.

(** [repr H p t]: the pointer [p] leads to a node whose kind, data and
    attributes are those of [t] and whose [FirstChild]/[NextSibling] links
    spell out the children of [t]. *)
Inductive repr (H : heap) : ptr -> tree -> Prop :=
| repr_node a nd kids :
    H !! a = Some nd ->
    repr_forest H (html.FirstChild nd) kids ->
    repr H (Some a)
      (Tree (html.Type_ nd) (html.Data nd) (html.Attr nd) kids)
with repr_forest (H : heap) : ptr -> list tree -> Prop :=
| repr_nil : repr_forest H None []
| repr_cons a nd t ts :
    H !! a = Some nd ->
    repr H (Some a) t ->
    repr_forest H (html.NextSibling nd) ts ->
    repr_forest H (Some a) (t :: ts).

(** Fuel that suffices to walk a tree. *)
Fixpoint weight (t : tree) : nat :=
  match t with
  | Tree _ _ _ kids => 2 + list_sum (map weight kids)
  end.

(** [leaves P t]: the nodes of [t] whose kind satisfies [P] have no
    children. *)
Fixpoint leaves (P : html.NodeType -> bool) (t : tree) : bool :=
  match t with
  | Tree ty _ _ kids =>
      (if P ty then bool_decide (kids = []) else true)
      && forallb (leaves P) kids
  end.

Definition is_text (ty : html.NodeType) : bool :=
  bool_decide (ty = html.TextNode).

(** The kinds that are not containers: everything but documents and
    elements. *)
Definition is_leaf_kind (ty : html.NodeType) : bool :=
  negb (bool_decide (ty = html.DocumentNode)
        || bool_decide (ty = html.ElementNode)).

Definition join (l : list string) : string := foldr String.append "" l.

(** [contains s sub]: [sub] occurs in [s] ([strings.Index(s, sub) != -1]). *)
Definition contains (s sub : string) : Prop :=
  exists pre post, s = pre +:+ sub +:+ post.

(** The same as a test: [sub] is a prefix of [s], or occurs further on. *)
Fixpoint prefixb (p s : string) : bool :=
  match p, s with
  | EmptyString, _ => true
  | String a p', String b s' => bool_decide (a = b) && prefixb p' s'
  | String _ _, EmptyString => false
  end.

Fixpoint containsb (s sub : string) : bool :=
  prefixb sub s
  || match s with
     | EmptyString => false
     | String _ s' => containsb s' sub
     end.

(** Recursive text extraction in the words of the specification: the data
    of every text node of the subtree, in document order, where comment
    nodes are skipped with their subtrees. *)
Fixpoint text_nodes (t : tree) : list string :=
  match t with
  | Tree ty data _ kids =>
      match ty with
      | html.CommentNode => []
      | html.TextNode => data :: concat (map text_nodes kids)
      | _ => concat (map text_nodes kids)
      end
  end.

Definition text_extraction (t : tree) : string := join (text_nodes t).

(** The tree with the content of every comment removed: its data and
    whatever hangs below it. *)
Fixpoint blank_comments (t : tree) : tree :=
  match t with
  | Tree ty data attrs kids =>
      match ty with
      | html.CommentNode => Tree html.CommentNode "" [] []
      | _ => Tree ty data attrs (map blank_comments kids)
      end
  end.

(** [has_comment d t]: some comment node of the subtree [t] has data [d]. *)
Inductive has_comment (d : string) : tree -> Prop :=
| has_comment_here attrs kids :
    has_comment d (Tree html.CommentNode d attrs kids)
| has_comment_below ty data attrs kids k :
    k ∈ kids -> has_comment d k -> has_comment d (Tree ty data attrs kids).

(** ** Serialization, modelled *)

Section RenderModel.

(** The escaping of text and attribute values, about which the
    specification says nothing: any function will do. *)
Variable escape : string -> string.

Definition dquote : string := String (Ascii.ascii_of_nat 34) EmptyString.

Definition render_attr (a : html.Attribute) : string :=
  " " +:+ html.Key a +:+ "=" +:+ dquote +:+ escape (html.Val a) +:+ dquote.

Definition open_tag (name : string) (attrs : list html.Attribute) : string :=
  "<" +:+ name +:+ join (map render_attr attrs) +:+ ">".

Definition close_tag (name : string) : string := "</" +:+ name +:+ ">".

Definition comment_markup (data : string) : string :=
  "<!--" +:+ data +:+ "-->".

(** Modelled from the spec: [html.Render] belongs to
    [golang.org/x/net/html] and is missing from the sources.  The
    specification says that serialization renders a node back to markup
    text, an element with its own tag around its children, and that it
    reproduces comments verbatim.  Text is written escaped, a document is
    the sequence of its children, a doctype its declaration; for a kind
    outside the five nothing is written. *)
Fixpoint Render (fuel : nat) (H : heap) (buf : string) (n : ptr)
  : comp string :=
  match fuel with
  | O => None
  | S fuel' =>
      match deref H n with
      | Panic p => Some (Panic p)
      | Ok nd =>
          match html.Type_ nd with
          | html.TextNode => Some (Ok (buf +:+ escape (html.Data nd)))
          | html.CommentNode =>
              Some (Ok (buf +:+ comment_markup (html.Data nd)))
          | html.DoctypeNode =>
              Some (Ok (buf +:+ "<!DOCTYPE " +:+ html.Data nd +:+ ">"))
          | html.DocumentNode =>
              for_siblings fuel' H (Render fuel' H) buf (html.FirstChild nd)
          | html.ElementNode =>
              match
                for_siblings fuel' H (Render fuel' H)
                  (buf +:+ open_tag (html.Data nd) (html.Attr nd))
                  (html.FirstChild nd)
              with
              | Some (Ok buf') =>
                  Some (Ok (buf' +:+ close_tag (html.Data nd)))
              | r => r
              end
          | _ => Some (Ok buf)
          end
      end
  end.

(** The markup of a tree, by the same reading of the specification. *)
Fixpoint render_tree (t : tree) : string :=
  match t with
  | Tree ty data attrs kids =>
      match ty with
      | html.TextNode => escape data
      | html.CommentNode => comment_markup data
      | html.DoctypeNode => "<!DOCTYPE " +:+ data +:+ ">"
      | html.DocumentNode => join (map render_tree kids)
      | html.ElementNode =>
          open_tag data attrs +:+ join (map render_tree kids)
          +:+ close_tag data
      | _ => ""
      end
  end.

End RenderModel.

(** ** A sample document

    The heap of a parsed page in the shape of the package's test document:
    a doctype with public and system identifiers, [html] with a [lang]
    attribute, a [header] holding a comment, and an element [b] with two
    attributes.  A second, unrelated document with a raw node lives at
    address 20. *)

Module Sample.

Definition node (parent first last prev next : ptr) (ty : html.NodeType)
    (data : string) (attrs : list html.Attribute) : html.Node :=
  html.mkNode parent first last prev next ty data attrs.

Definition at_ (k v : string) : html.Attribute := html.mkAttribute "" k v.

Definition doc : addr := 1%positive.
Definition doctype : addr := 2%positive.
Definition html_ : addr := 3%positive.
Definition head_ : addr := 4%positive.
Definition body : addr := 5%positive.
Definition header : addr := 6%positive.
Definition text1 : addr := 7%positive.
Definition logo : addr := 8%positive.
Definition h1 : addr := 9%positive.
Definition title : addr := 10%positive.
Definition text2 : addr := 11%positive.
Definition b : addr := 12%positive.
Definition other_doc : addr := 20%positive.
Definition raw : addr := 21%positive.

Definition H : heap :=
  list_to_map [
    (doc, node None (Some doctype) (Some html_) None None
            html.DocumentNode "" []);
    (doctype, node (Some doc) None None None (Some html_)
            html.DoctypeNode "html"
            [at_ "public" "-//W3C//DTD HTML 4.01//EN";
             at_ "system" "http://www.w3.org/TR/html4/strict.dtd"]);
    (html_, node (Some doc) (Some head_) (Some body) (Some doctype) None
            html.ElementNode "html" [at_ "lang" "en-US"]);
    (head_, node (Some html_) None None None (Some body)
            html.ElementNode "head" []);
    (body, node (Some html_) (Some header) (Some b) (Some head_) None
            html.ElementNode "body" []);
    (header, node (Some body) (Some text1) (Some text2) None (Some b)
            html.ElementNode "header" []);
    (text1, node (Some header) None None None (Some logo)
            html.TextNode " " []);
    (logo, node (Some header) None None (Some text1) (Some h1)
            html.CommentNode " Logo " []);
    (h1, node (Some header) (Some title) (Some title) (Some logo)
            (Some text2) html.ElementNode "h1" []);
    (title, node (Some h1) None None None None
            html.TextNode "City Gallery" []);
    (text2, node (Some header) None None (Some h1) None
            html.TextNode " " []);
    (b, node (Some body) None None (Some header) None
            html.ElementNode "b" [at_ "attr" "1"; at_ "id" "x"]);
    (other_doc, node None (Some raw) (Some raw) None None
            html.DocumentNode "" []);
    (raw, node (Some other_doc) None None None None
            html.RawNode "<hr>" [])
  ].

(** The same page with the bare declaration [<!DOCTYPE html>]. *)
Definition Hplain : heap :=
  <[doctype := node (Some doc) None None None (Some html_)
                 html.DoctypeNode "html" []]> H.

Definition leaf (ty : html.NodeType) (data : string) : tree :=
  Tree ty data [] [].

Definition header_tree : tree :=
  Tree html.ElementNode "header" [] [
    leaf html.TextNode " ";
    leaf html.CommentNode " Logo ";
    Tree html.ElementNode "h1" [] [leaf html.TextNode "City Gallery"];
    leaf html.TextNode " "
  ].

End Sample.

(** ** Well-formedness of the heap *)

(** [prev_linked H prev l]: the nodes at the addresses [l] are consecutive
    siblings in document order, each pointing back to the one before it
    through [PrevSibling], the first one to [prev]. *)
Fixpoint prev_linked (H : heap) (prev : ptr) (l : list addr) : Prop :=
  match l with
  | [] => True
  | a :: l' =>
      (exists nd, H !! a = Some nd /\ html.PrevSibling nd = prev)
      /\ prev_linked H (Some a) l'
  end.

(** A sibling chain starts at a node without a preceding sibling. *)
Definition sibling_chain (H : heap) (l : list addr) : Prop :=
  prev_linked H None l.

(** Only elements carry attributes. *)
Definition attrs_on_elements_only (H : heap) : Prop :=
  map_Forall
    (fun _ nd => html.Attr nd <> [] -> html.Type_ nd = html.ElementNode) H.

(** The calls under which the invariant is studied: every move but
    [MoveToRoot], where [MoveTo] is given a navigator that satisfies the
    invariant itself. *)
Definition op_admitted (H : heap) (o : op) : Prop :=
  match o with
  | OpMoveToRoot => False
  | OpMoveTo (HtmlNavigator (Some other)) => attr_invariant H other
  | _ => True
  end.

(** ** Further vocabulary *)

(** [String]: the navigator as a [fmt.Stringer]. *)
Definition NodeNavigator_String (fuel : nat) (H : heap) (h : NodeNavigator)
  : comp string :=
  Value fuel H h.

(** [next_linked H p l]: starting at the pointer [p], the [NextSibling]
    links run through the addresses [l] and end in nil. *)
Fixpoint next_linked (H : heap) (p : ptr) (l : list addr) : Prop :=
  match l with
  | [] => p = None
  | a :: l' =>
      p = Some a /\
      exists nd, H !! a = Some nd /\ next_linked H (html.NextSibling nd) l'
  end.

(** The children of the node at [a], as the loops of the package find
    them: from [FirstChild] along [NextSibling]. *)
Definition children_of (H : heap) (a : addr) (l : list addr) : Prop :=
  exists nd, H !! a = Some nd /\ next_linked H (html.FirstChild nd) l.

(** The attribute index, when set, is an index of the attributes of the
    current node. *)
Definition attr_in_range (H : heap) (h : NodeNavigator) : Prop :=
  attr h = -1 \/
  exists nd, deref H (curr h) = Ok nd /\ 0 <= attr h < len (html.Attr nd).

Definition op_in_range (H : heap) (o : op) : Prop :=
  match o with
  | OpMoveToRoot => False
  | OpMoveTo (HtmlNavigator (Some other)) => attr_in_range H other
  | _ => True
  end.

(** The moves along the tree below and beside the current node. *)
Definition is_sideways (o : op) : bool :=
  match o with
  | OpMoveToChild | OpMoveToFirst _ | OpMoveToNext | OpMoveToPrevious => true
  | _ => false
  end.

(** * Properties *)

(** ** Records and results *)

Lemma set_attr_same (h : NodeNavigator) (i : Z) :
  attr h = i -> set_attr h i = h.
Proof. destruct h; simpl; intros ->; reflexivity. Qed.

Lemma set_curr_same (h : NodeNavigator) (p : ptr) :
  curr h = p -> set_curr h p = h.
Proof. destruct h; simpl; intros ->; reflexivity. Qed.

Lemma set_attr_twice (h : NodeNavigator) (i j : Z) :
  set_attr (set_attr h i) j = set_attr h j.
Proof. reflexivity. Qed.

Lemma deref_Some (H : heap) (a : addr) (nd : html.Node) :
  H !! a = Some nd -> deref H (Some a) = Ok nd.
Proof. intros E; simpl; rewrite E; reflexivity. Qed.

Lemma deref_Ok (H : heap) (p : ptr) (nd : html.Node) :
  deref H p = Ok nd -> exists a, p = Some a /\ H !! a = Some nd.
Proof.
  destruct p as [a|]; simpl; [|discriminate].
  destruct (H !! a) eqn:E; [|discriminate].
  intros [= ->]; eauto.
Qed.

(** ** MoveToRoot *)

(** C1 (the code does not do this).  [MoveToRoot] assigns [curr] only: the
    attribute index survives the call.  On the sample document, a cursor
    that has walked from the document to the [lang] attribute of [html] is
    left by [MoveToRoot] on the document node with [attr = 0]; the engine
    then sees a root node, and [LocalName] indexes the empty attribute
    list of the document. *)
Theorem MoveToRoot_keeps_attr :
  (forall h : NodeNavigator,
      MoveToRoot h = {| root := root h; curr := root h; attr := attr h |}) /\
  let h := mkNav (Some Sample.doc) (Some Sample.html_) 0 in
  run Sample.H [OpMoveToChild; OpMoveToNext; OpMoveToNextAttribute]
      (CreateXPathNavigator (Some Sample.doc)) = Some (Ok h) /\
  MoveToRoot h = mkNav (Some Sample.doc) (Some Sample.doc) 0 /\
  attr (MoveToRoot h) <> -1 /\
  NodeType Sample.H (MoveToRoot h) = Ok xpath.RootNode /\
  LocalName Sample.H (MoveToRoot h) = Panic IndexOutOfRange.
Proof.
  split; [reflexivity|].
  repeat split; try reflexivity.
  simpl; lia.
Qed.

(** ** MoveToParent *)

(** C3.  [MoveToParent] on an attribute position clears the index and
    keeps [curr]; on a node position it moves to the parent when there is
    one and otherwise returns false with the cursor as it was.  Hence a
    successful [MoveToNextAttribute] on a node followed by [MoveToParent]
    is back on that node. *)
Theorem MoveToParent_spec (H : heap) (h : NodeNavigator) :
  (attr h <> -1 -> MoveToParent H h = Ok (true, set_attr h (-1))) /\
  (attr h = -1 ->
   forall nd, deref H (curr h) = Ok nd ->
     match html.Parent nd with
     | Some p => MoveToParent H h = Ok (true, set_curr h (Some p))
     | None => MoveToParent H h = Ok (false, h)
     end) /\
  (attr h = -1 ->
   forall h1, MoveToNextAttribute H h = Ok (true, h1) ->
     MoveToParent H h1 = Ok (true, h)).
Proof.
  unfold MoveToParent. repeat split.
  - intros Hne. rewrite decide_True by assumption. reflexivity.
  - intros He nd Hd. rewrite decide_False by lia.
    rewrite Hd; simpl. destruct (html.Parent nd); reflexivity.
  - intros He h1. unfold MoveToNextAttribute.
    destruct (deref H (curr h)) as [nd|]; simpl; [|discriminate].
    case_decide; [discriminate|]. intros [= <-]; simpl.
    rewrite decide_True by lia.
    rewrite set_attr_twice, set_attr_same by assumption. reflexivity.
Qed.

(** ** MoveToNextAttribute *)

Lemma MoveToNextAttribute_result (H : heap) (h : NodeNavigator)
    (nd : html.Node) :
  deref H (curr h) = Ok nd ->
  MoveToNextAttribute H h =
    Ok (if decide (attr h < len (html.Attr nd) - 1)
        then (true, set_attr h (attr h + 1)) else (false, h)).
Proof.
  intros Hd. unfold MoveToNextAttribute. rewrite Hd; simpl.
  repeat case_decide; try reflexivity; lia.
Qed.

Lemma MoveToNextAttribute_times_true (H : heap) (nd : html.Node) (i : nat) :
  forall h,
    deref H (curr h) = Ok nd ->
    attr h + Z.of_nat i <= len (html.Attr nd) - 1 ->
    MoveToNextAttribute_times i H h =
      Ok (replicate i true, set_attr h (attr h + Z.of_nat i)).
Proof.
  induction i as [|i IH]; intros h Hd Hle.
  - simpl. rewrite set_attr_same by lia. reflexivity.
  - cbn [MoveToNextAttribute_times].
    rewrite (MoveToNextAttribute_result H h nd Hd).
    rewrite decide_True by lia. simpl.
    rewrite IH by (simpl; auto; lia). simpl.
    do 3 f_equal. lia.
Qed.

Lemma MoveToNextAttribute_times_snoc (H : heap) (n : nat) :
  forall h bs h' b h'',
    MoveToNextAttribute_times n H h = Ok (bs, h') ->
    MoveToNextAttribute H h' = Ok (b, h'') ->
    MoveToNextAttribute_times (S n) H h = Ok (bs ++ [b], h'').
Proof.
  induction n as [|n IH]; intros h bs h' b h'' Hn Hs.
  - injection Hn as <- <-. simpl. rewrite Hs. reflexivity.
  - cbn [MoveToNextAttribute_times] in Hn |- *.
    destruct (MoveToNextAttribute H h) as [[b0 h0]|]; simpl in *;
      [|discriminate].
    destruct (MoveToNextAttribute_times n H h0) as [[bs0 h1]|] eqn:E;
      simpl in *; [|discriminate].
    injection Hn as <- <-.
    pose proof (IH h0 bs0 h1 b h'' E Hs) as IH'.
    cbn [MoveToNextAttribute_times] in IH'. rewrite IH'. reflexivity.
Qed.

(** C4.  On a node with [k] attributes and a cursor with [attr = -1], the
    first [k] calls of [MoveToNextAttribute] return true, the [i]-th
    leaving [attr = i - 1], and call [k + 1] returns false and changes
    nothing.  For any cursor on the node, the call returns true exactly
    when [attr < len(curr.Attr) - 1]; it then adds one to [attr] and
    otherwise leaves the cursor alone. *)
Theorem MoveToNextAttribute_enumerates (H : heap) (h : NodeNavigator)
    (nd : html.Node) :
  deref H (curr h) = Ok nd ->
  attr h = -1 ->
  let k := length (html.Attr nd) in
  (forall i : nat, (i <= k)%nat ->
     MoveToNextAttribute_times i H h =
       Ok (replicate i true, set_attr h (Z.of_nat i - 1))) /\
  MoveToNextAttribute_times (S k) H h =
    Ok (replicate k true ++ [false], set_attr h (Z.of_nat k - 1)) /\
  (forall h0 : NodeNavigator, curr h0 = curr h ->
     exists b h', MoveToNextAttribute H h0 = Ok (b, h') /\
       (b = true <-> attr h0 < len (html.Attr nd) - 1) /\
       h' = if b then set_attr h0 (attr h0 + 1) else h0).
Proof.
  intros Hd Ha k.
  assert (Hi : forall i : nat, (i <= k)%nat ->
     MoveToNextAttribute_times i H h =
       Ok (replicate i true, set_attr h (Z.of_nat i - 1))).
  { intros i Hi.
    rewrite (MoveToNextAttribute_times_true H nd i h Hd)
      by (unfold len; fold k; lia).
    do 3 f_equal. lia. }
  split; [exact Hi|]. split.
  - eapply MoveToNextAttribute_times_snoc; [apply Hi; lia|].
    rewrite (MoveToNextAttribute_result H _ nd) by exact Hd.
    rewrite decide_False by (simpl; unfold len; fold k; lia). reflexivity.
  - intros h0 Hc.
    rewrite (MoveToNextAttribute_result H h0 nd) by (rewrite Hc; exact Hd).
    case_decide; eexists _, _; (split; [reflexivity|]); split;
      try reflexivity; split; intros E; first [assumption | reflexivity
        | discriminate E | lia].
Qed.

(** ** NodeType *)

(** C5.  [NodeType] maps a comment to Comment, a text to Text, a document
    and a doctype to Root, an element to Element when [attr = -1] and to
    Attribute otherwise; on a node of any other kind it panics and
    returns no category. *)
Theorem NodeType_classification (H : heap) (h : NodeNavigator)
    (nd : html.Node) :
  deref H (curr h) = Ok nd ->
  (html.Type_ nd = html.CommentNode -> NodeType H h = Ok xpath.CommentNode) /\
  (html.Type_ nd = html.TextNode -> NodeType H h = Ok xpath.TextNode) /\
  (html.Type_ nd = html.DocumentNode -> NodeType H h = Ok xpath.RootNode) /\
  (html.Type_ nd = html.DoctypeNode -> NodeType H h = Ok xpath.RootNode) /\
  (html.Type_ nd = html.ElementNode -> attr h = -1 ->
     NodeType H h = Ok xpath.ElementNode) /\
  (html.Type_ nd = html.ElementNode -> attr h <> -1 ->
     NodeType H h = Ok xpath.AttributeNode) /\
  (html.Type_ nd ∉ [html.CommentNode; html.TextNode; html.DocumentNode;
                    html.DoctypeNode; html.ElementNode] ->
     (exists msg, NodeType H h = Panic (PanicMsg msg)) /\
     forall c, NodeType H h <> Ok c).
Proof.
  intros Hd. unfold NodeType. rewrite Hd; simpl.
  repeat split; try (intros ->; try reflexivity).
  - intros He. rewrite decide_False by lia. reflexivity.
  - intros Hne. rewrite decide_True by assumption. reflexivity.
  - destruct (html.Type_ nd); try (exfalso; apply H0; set_solver);
      eexists; reflexivity.
  - intros c. destruct (html.Type_ nd); try discriminate;
      exfalso; apply H0; set_solver.
Qed.

(** ** MoveTo *)

Lemma MoveToFirst_loop_root (fuel : nat) (H : heap) :
  forall h h', MoveToFirst_loop fuel H h = Some (Ok h') -> root h' = root h.
Proof.
  induction fuel as [|fuel IH]; intros h h'; simpl; [discriminate|].
  destruct (deref H (curr h)) as [n|]; [|discriminate].
  destruct (html.PrevSibling n) as [node|].
  - intros E. apply IH in E. exact E.
  - intros [= <-]. reflexivity.
Qed.

Lemma MoveToFirst_loop_attr (fuel : nat) (H : heap) :
  forall h h', MoveToFirst_loop fuel H h = Some (Ok h') -> attr h' = attr h.
Proof.
  induction fuel as [|fuel IH]; intros h h'; simpl; [discriminate|].
  destruct (deref H (curr h)) as [n|]; [|discriminate].
  destruct (html.PrevSibling n) as [node|].
  - intros E. apply IH in E. exact E.
  - intros [= <-]. reflexivity.
Qed.

(** Unfolds one structural move: the guard on [attr], the dereference and
    the link that is followed. *)
Ltac step_move :=
  repeat (simpl; match goal with
    | |- context [decide ?P] => destruct (decide P)
    | |- context [deref ?H ?p] => destruct (deref H p) as [?nd|]
    | |- context [match ?l with _ => _ end] =>
        lazymatch type of l with ptr => destruct l end
    end); simpl.

(** No call changes [root]. *)
Lemma exec_root (H : heap) (o : op) (h h' : NodeNavigator) :
  exec H o h = Some (Ok h') -> root h' = root h.
Proof.
  destruct o; simpl.
  - intros [= <-]; reflexivity.
  - unfold MoveToParent; step_move; try discriminate;
      intros [= <-]; reflexivity.
  - unfold MoveToNextAttribute; step_move; try discriminate;
      intros [= <-]; reflexivity.
  - unfold MoveToChild; step_move; try discriminate; intros [= <-]; reflexivity.
  - unfold MoveToFirst.
    destruct (decide (attr h <> -1)); [intros [= <-]; reflexivity|].
    destruct (deref H (curr h)) as [nd|]; [|discriminate].
    destruct (html.PrevSibling nd); [|intros [= <-]; reflexivity].
    destruct (MoveToFirst_loop fuel H h) as [[h1|]|] eqn:E;
      simpl; try discriminate.
    intros [= <-]. eapply MoveToFirst_loop_root; eassumption.
  - unfold MoveToNext; step_move; try discriminate; intros [= <-]; reflexivity.
  - unfold MoveToPrevious; step_move; try discriminate;
      intros [= <-]; reflexivity.
  - unfold MoveTo. destruct other as [|[node|]|]; simpl;
      try discriminate; try (intros [= <-]; reflexivity).
    destruct (decide (root node <> root h)); intros [= <-]; reflexivity.
  - intros [= <-]; reflexivity.
Qed.

Lemma run_root (H : heap) (ops : list op) :
  forall h h', run H ops h = Some (Ok h') -> root h' = root h.
Proof.
  induction ops as [|o ops IH]; intros h h'; simpl.
  - intros [= <-]; reflexivity.
  - destruct (exec H o h) as [[h1|]|] eqn:E; try discriminate.
    intros Hr. rewrite (IH _ _ Hr). eapply exec_root; eassumption.
Qed.

(** C6.  [h.MoveTo(other)] returns true exactly when [other] is a
    [NodeNavigator] with the root of [h]; then [h] takes over the [curr]
    and [attr] of [other], and otherwise [h] is unchanged.  Two cursors
    created on different nodes keep different roots whatever calls they
    receive, so [MoveTo] between them returns false and changes
    nothing. *)
Theorem MoveTo_spec (h : NodeNavigator) (other : Navigator) :
  other <> HtmlNavigator None ->
  (exists b h', MoveTo h other = Ok (b, h') /\
     (b = true <->
      exists o, other = HtmlNavigator (Some o) /\ root o = root h) /\
     (b = true ->
      exists o, other = HtmlNavigator (Some o) /\
                h' = {| root := root h; curr := curr o; attr := attr o |}) /\
     (b = false -> h' = h)) /\
  (forall (H : heap) (top top' : ptr) (ops ops' : list op)
          (o : NodeNavigator),
     top <> top' ->
     run H ops (CreateXPathNavigator top) = Some (Ok h) ->
     run H ops' (CreateXPathNavigator top') = Some (Ok o) ->
     MoveTo h (HtmlNavigator (Some o)) = Ok (false, h)).
Proof.
  intros Hn. split.
  - destruct other as [|[o|]|tag]; simpl; [| |congruence|].
    + exists false, h. repeat split; try discriminate.
      intros [o [? _]]; discriminate.
    + destruct (decide (root o <> root h)) as [Hne|He].
      * exists false, h. repeat split; try discriminate.
        intros [o' [[= <-] ?]]. contradiction.
      * apply dec_stable in He.
        eexists true, _. repeat split; eauto; discriminate.
    + exists false, h. repeat split; try discriminate.
      intros [o [? _]]; discriminate.
  - intros H top top' ops ops' o Hne Hr Hr'.
    apply run_root in Hr, Hr'. simpl in Hr, Hr'.
    simpl. rewrite decide_True by congruence. reflexivity.
Qed.

(** ** MoveToFirst *)

Lemma prev_linked_lookup (H : heap) (l : list addr) :
  forall (prev : ptr) (i : nat) (a : addr),
    prev_linked H prev l ->
    l !! i = Some a ->
    exists nd, H !! a = Some nd /\
      html.PrevSibling nd = match i with O => prev | S j => l !! j end.
Proof.
  induction l as [|b l IH]; intros prev i a Hl Hi; [discriminate|].
  destruct Hl as [[nd [Hb Hp]] Hl].
  destruct i as [|j]; simpl in Hi.
  - injection Hi as <-. eauto.
  - destruct (IH (Some b) j a Hl Hi) as [nd' [Ha Hp']].
    exists nd'. split; [exact Ha|].
    rewrite Hp'. destruct j; reflexivity.
Qed.

(** The loop walks back to the head of the chain and needs one unit of
    fuel per step. *)
Lemma MoveToFirst_loop_chain (H : heap) (l : list addr) (i : nat) :
  forall (fuel : nat) (a : addr) (h : NodeNavigator),
    sibling_chain H l ->
    l !! i = Some a ->
    curr h = Some a ->
    (i < fuel)%nat ->
    MoveToFirst_loop fuel H h = Some (Ok (set_curr h (head l))).
Proof.
  induction i as [|j IH]; intros fuel a h Hl Hi Hc Hf;
    (destruct fuel as [|fuel]; [lia|]);
    destruct (prev_linked_lookup H l None _ a Hl Hi) as [nd [Ha Hp]];
    simpl; rewrite Hc; simpl; rewrite Ha, Hp.
  - rewrite set_curr_same; [reflexivity|].
    rewrite Hc. destruct l; [discriminate|]. simpl in Hi |- *. congruence.
  - destruct (l !! j) as [a'|] eqn:Hj.
    + rewrite (IH fuel a' (set_curr h (Some a'))) by (auto; lia).
      reflexivity.
    + apply lookup_ge_None in Hj. apply lookup_lt_Some in Hi. lia.
Qed.

(** C9.  [MoveToFirst] returns false and changes nothing when
    [attr != -1] or when the current node has no preceding sibling.  On a
    node at position [i > 0] of a sibling chain, with [attr = -1], it
    returns true with [curr] on the first node of the chain.  A second
    call always returns with the cursor where the first call left it. *)
Theorem MoveToFirst_spec (H : heap) (h : NodeNavigator) (fuel : nat) :
  (attr h <> -1 -> MoveToFirst fuel H h = Some (Ok (false, h))) /\
  (forall nd, deref H (curr h) = Ok nd -> html.PrevSibling nd = None ->
     MoveToFirst fuel H h = Some (Ok (false, h))) /\
  (forall (l : list addr) (i : nat) (a : addr),
     sibling_chain H l -> l !! i = Some a -> curr h = Some a ->
     (i < fuel)%nat ->
     exists first, head l = Some first /\
       (attr h = -1 -> i <> O ->
        MoveToFirst fuel H h = Some (Ok (true, set_curr h (Some first)))) /\
       exists b h1 b2,
         MoveToFirst fuel H h = Some (Ok (b, h1)) /\
         MoveToFirst fuel H h1 = Some (Ok (b2, h1))).
Proof.
  assert (HA : forall h, attr h <> -1 ->
                         MoveToFirst fuel H h = Some (Ok (false, h))).
  { intros h0 Hne. unfold MoveToFirst.
    rewrite decide_True by assumption. reflexivity. }
  assert (HB : forall h nd, deref H (curr h) = Ok nd ->
                 html.PrevSibling nd = None ->
                 MoveToFirst fuel H h = Some (Ok (false, h))).
  { intros h0 nd Hd Hp. unfold MoveToFirst.
    destruct (decide (attr h0 <> -1)); [reflexivity|].
    rewrite Hd, Hp. reflexivity. }
  split; [apply HA|]. split; [apply HB|].
  intros l i a Hl Hi Hc Hf.
  destruct l as [|first l']; [discriminate|].
  exists first. split; [reflexivity|].
  destruct (prev_linked_lookup H _ None 0%nat first Hl eq_refl)
    as [nd0 [H0 Hp0]].
  assert (Hmove : attr h = -1 -> i <> O ->
     MoveToFirst fuel H h = Some (Ok (true, set_curr h (Some first)))).
  { intros He Hi0. unfold MoveToFirst.
    rewrite decide_False by lia.
    destruct (prev_linked_lookup H _ None i a Hl Hi) as [nd [Ha Hp]].
    rewrite Hc. simpl. rewrite Ha, Hp.
    destruct i as [|j]; [contradiction|].
    destruct ((first :: l') !! j) eqn:Hj.
    - rewrite (MoveToFirst_loop_chain H _ (S j) fuel a h Hl Hi Hc Hf).
      reflexivity.
    - apply lookup_ge_None in Hj. apply lookup_lt_Some in Hi. lia. }
  split; [exact Hmove|].
  destruct (decide (attr h <> -1)) as [Hne|He].
  { exists false, h, false. split; apply HA; assumption. }
  apply dec_stable in He.
  destruct i as [|j].
  - simpl in Hi. injection Hi as <-.
    exists false, h, false.
    split; apply (HB h nd0); rewrite ?Hc; auto using deref_Some.
  - exists true, (set_curr h (Some first)), false.
    split; [apply Hmove; auto|].
    apply (HB _ nd0); simpl; auto using deref_Some.
    rewrite H0. reflexivity.
Qed.

(** ** The invariant on [attr] *)

Lemma exec_attr_invariant (H : heap) (o : op) (h h' : NodeNavigator) :
  attrs_on_elements_only H ->
  op_admitted H o ->
  attr_invariant H h ->
  exec H o h = Some (Ok h') ->
  attr_invariant H h'.
Proof.
  intros Hel Hadm Hinv.
  assert (Hstay : forall x, Some (Ok h) = Some (Ok x) -> attr_invariant H x).
  { intros x [= <-]. exact Hinv. }
  assert (Hnode : forall x, attr x = -1 -> attr_invariant H x).
  { intros x He Hne. contradiction. }
  destruct o; simpl.
  - destruct Hadm.
  - unfold MoveToParent; step_move; try discriminate;
      intros [= <-]; apply Hnode; simpl; lia.
  - unfold MoveToNextAttribute.
    destruct (deref H (curr h)) as [nd|] eqn:Hd; simpl; [|discriminate].
    case_decide as Hge; simpl; [apply Hstay|].
    intros [= <-] _. simpl. exists nd. split; [exact Hd|].
    destruct (decide (attr h = -1)) as [He|Hne].
    + apply deref_Ok in Hd as [a [_ Ha]].
      apply (Hel a nd Ha). intros Hnil. rewrite Hnil in Hge.
      unfold len in Hge. simpl in Hge. lia.
    + destruct (Hinv Hne) as [nd' [Hd' Ht]]. congruence.
  - unfold MoveToChild; step_move; try discriminate; try apply Hstay;
      intros [= <-]; apply Hnode; simpl; lia.
  - unfold MoveToFirst.
    destruct (decide (attr h <> -1)); [apply Hstay|].
    destruct (deref H (curr h)) as [nd|]; [|discriminate].
    destruct (html.PrevSibling nd); [|apply Hstay].
    destruct (MoveToFirst_loop fuel H h) as [[h1|]|] eqn:E;
      simpl; try discriminate.
    intros [= <-]. apply Hnode.
    rewrite (MoveToFirst_loop_attr _ _ _ _ E). lia.
  - unfold MoveToNext; step_move; try discriminate; try apply Hstay;
      intros [= <-]; apply Hnode; simpl; lia.
  - unfold MoveToPrevious; step_move; try discriminate; try apply Hstay;
      intros [= <-]; apply Hnode; simpl; lia.
  - unfold MoveTo. destruct other as [|[node|]|]; simpl;
      try discriminate; try apply Hstay.
    destruct (decide (root node <> root h)); simpl; [apply Hstay|].
    intros [= <-]. exact Hadm.
  - apply Hstay.
Qed.

(** C2 (as the code has it).  On a heap where only elements carry
    attributes, every cursor reached from a fresh navigator by calls other
    than [MoveToRoot] satisfies the invariant: [attr != -1] only on an
    element.  ([MoveTo] is given navigators that satisfy it.) *)
Theorem attr_invariant_preserved (H : heap) (top : ptr) (ops : list op)
    (h : NodeNavigator) :
  attrs_on_elements_only H ->
  Forall (op_admitted H) ops ->
  run H ops (CreateXPathNavigator top) = Some (Ok h) ->
  attr_invariant H h.
Proof.
  intros Hel Hops.
  assert (Hfresh : attr_invariant H (CreateXPathNavigator top)).
  { intros Hne. simpl in Hne. contradiction. }
  revert Hfresh. generalize (CreateXPathNavigator top).
  induction Hops as [|o ops Ho Hops IH]; intros h0 Hinv; simpl.
  - intros [= <-]. exact Hinv.
  - destruct (exec H o h0) as [[h1|]|] eqn:E; try discriminate.
    apply IH. eapply exec_attr_invariant; eassumption.
Qed.

(** C2 as stated fails: [MoveToNextAttribute] does not look at the kind of
    the node.  On the sample document the first child of the document is a
    doctype with two attributes; the call succeeds there and leaves
    [attr = 0] on a node that is not an element. *)
Lemma attr_invariant_broken_on_doctype :
  exists h,
    run Sample.H [OpMoveToChild; OpMoveToNextAttribute]
        (CreateXPathNavigator (Some Sample.doc)) = Some (Ok h) /\
    ~ attr_invariant Sample.H h.
Proof.
  eexists. split; [reflexivity|].
  intros Hinv. destruct Hinv as [nd [Hd Ht]]; [simpl; lia|].
  vm_compute in Hd. injection Hd as <-. discriminate Ht.
Qed.

(** ** Strings *)

Lemma append_nil_l (a : string) : "" +:+ a = a.
Proof. reflexivity. Qed.

Lemma append_cons (x : Ascii.ascii) (a b : string) :
  String x a +:+ b = String x (a +:+ b).
Proof. reflexivity. Qed.

Lemma append_assoc (a b c : string) : (a +:+ b) +:+ c = a +:+ (b +:+ c).
Proof.
  induction a as [|x a IH]; [reflexivity|].
  rewrite !append_cons, IH. reflexivity.
Qed.

Lemma append_nil_r (a : string) : a +:+ "" = a.
Proof.
  induction a as [|x a IH]; [reflexivity|].
  rewrite append_cons, IH. reflexivity.
Qed.

Lemma join_app (l1 l2 : list string) : join (l1 ++ l2) = join l1 +:+ join l2.
Proof.
  induction l1 as [|s l1 IH]; simpl; [reflexivity|].
  unfold join in *. simpl. rewrite IH, append_assoc. reflexivity.
Qed.

Lemma join_concat (ls : list (list string)) :
  join (concat ls) = join (map join ls).
Proof.
  induction ls as [|l ls IH]; simpl; [reflexivity|].
  rewrite join_app, IH. reflexivity.
Qed.

Lemma foldl_append {A} (f : A -> string) (l : list A) :
  forall buf, foldl (fun s x => s +:+ f x) buf l = buf +:+ join (map f l).
Proof.
  induction l as [|x l IH]; intros buf; simpl.
  - rewrite append_nil_r. reflexivity.
  - rewrite IH, append_assoc. reflexivity.
Qed.

Lemma contains_refl (s : string) : contains s s.
Proof. exists "", "". rewrite append_nil_l, append_nil_r. reflexivity. Qed.

Lemma contains_trans (s t u : string) :
  contains s t -> contains t u -> contains s u.
Proof.
  intros [p1 [q1 ->]] [p2 [q2 ->]].
  exists (p1 +:+ p2), (q2 +:+ q1).
  rewrite !append_assoc. reflexivity.
Qed.

Lemma contains_app_l (s t u : string) : contains t u -> contains (s +:+ t) u.
Proof.
  intros [p [q ->]]. exists (s +:+ p), q. rewrite !append_assoc. reflexivity.
Qed.

Lemma contains_app_r (s t u : string) : contains s u -> contains (s +:+ t) u.
Proof.
  intros [p [q ->]]. exists p, (q +:+ t). rewrite !append_assoc. reflexivity.
Qed.

Lemma prefixb_spec (p : string) :
  forall s, prefixb p s = true <-> exists post, s = p +:+ post.
Proof.
  induction p as [|a p IH]; intros s; simpl.
  - split; [intros _; exists s; reflexivity|reflexivity].
  - destruct s as [|b s]; [split; [discriminate|intros [? ?]; discriminate]|].
    rewrite andb_true_iff, bool_decide_eq_true, IH. split.
    + intros [-> [post ->]]. exists post. reflexivity.
    + intros [post E]. rewrite append_cons in E. injection E as -> ->. eauto.
Qed.

Lemma containsb_spec (s sub : string) :
  containsb s sub = true <-> contains s sub.
Proof.
  induction s as [|c s IH].
  - simpl. rewrite orb_false_r, prefixb_spec. split.
    + intros [post E]. exists "", post. exact E.
    + intros [[|x pre] [post E]]; [eauto|discriminate].
  - simpl. rewrite orb_true_iff, prefixb_spec, IH. split.
    + intros [[post E]|[pre [post E]]].
      * exists "", post. exact E.
      * exists (String c pre), post. rewrite E. reflexivity.
    + intros [[|x pre] [post E]]; [left; eauto|right].
      rewrite append_cons in E. injection E as -> ->. exists pre, post.
      reflexivity.
Qed.

Lemma contains_join {A} (f : A -> string) (l : list A) (x : A) :
  x ∈ l -> contains (join (map f l)) (f x).
Proof.
  induction 1 as [x l|x y l Hin IH]; simpl.
  - apply contains_app_r, contains_refl.
  - apply contains_app_l, IH.
Qed.

(** ** Trees *)

(** Induction on a tree with the hypothesis for every child. *)
Lemma tree_induction (P : tree -> Prop) :
  (forall ty data attrs kids,
      Forall P kids -> P (Tree ty data attrs kids)) ->
  forall t, P t.
Proof.
  intros Hstep. fix IH 1. intros [ty data attrs kids].
  apply Hstep. induction kids as [|k kids IHk]; constructor.
  - apply IH.
  - exact IHk.
Qed.

Lemma weight_elem (t : tree) (ts : list tree) :
  t ∈ ts -> (weight t <= list_sum (map weight ts))%nat.
Proof. induction 1; simpl; lia. Qed.

Lemma weight_length (ts : list tree) :
  (length ts <= list_sum (map weight ts))%nat.
Proof.
  induction ts as [|[ty d at_ kids] ts IH]; simpl in *; lia.
Qed.

Lemma leaves_elem (P : html.NodeType -> bool) (t : tree) (ts : list tree) :
  t ∈ ts -> forallb (leaves P) ts = true -> leaves P t = true.
Proof.
  intros Hin Hall. rewrite forallb_forall in Hall.
  apply Hall, list_elem_of_In, Hin.
Qed.

Lemma repr_intro (H : heap) (a : addr) (nd : html.Node) (ty : html.NodeType)
    (data : string) (attrs : list html.Attribute) (kids : list tree) :
  H !! a = Some nd ->
  html.Type_ nd = ty -> html.Data nd = data -> html.Attr nd = attrs ->
  repr_forest H (html.FirstChild nd) kids ->
  repr H (Some a) (Tree ty data attrs kids).
Proof. intros Ha <- <- <- Hk. apply repr_node; assumption. Qed.

(** Builds the representation of a concrete tree in a concrete heap. *)
Ltac solve_repr :=
  repeat first
    [ apply repr_nil
    | eapply repr_intro; [reflexivity | reflexivity | reflexivity
                         | reflexivity | simpl]
    | eapply repr_cons; [reflexivity | | simpl] ].

(** The loop over the children of a node, when the body is known on every
    child: it returns, and folds the children from left to right. *)
Lemma for_siblings_forest {St : Type} (H : heap) (body : St -> ptr -> comp St)
    (g : St -> tree -> St) (ts : list tree) :
  forall (fuel : nat) (p : ptr) (s : St),
    repr_forest H p ts ->
    (length ts < fuel)%nat ->
    (forall t a s, t ∈ ts -> repr H (Some a) t ->
                   body s (Some a) = Some (Ok (g s t))) ->
    for_siblings fuel H body s p = Some (Ok (foldl g s ts)).
Proof.
  induction ts as [|t ts IH]; intros fuel p s Hr Hf Hbody;
    (destruct fuel as [|fuel]; [simpl in Hf; lia|]);
    inversion Hr; subst; simpl.
  - reflexivity.
  - rewrite (Hbody t a s) by (auto; constructor).
    match goal with E : H !! a = Some _ |- _ => rewrite E end.
    apply IH; [assumption | simpl in Hf; lia |].
    intros t' a' s' Hin. apply Hbody. constructor. exact Hin.
Qed.

(** ** InnerText *)

Lemma output_repr (H : heap) (fuel : nat) :
  forall (t : tree) (a : addr) (buf : string),
    repr H (Some a) t ->
    leaves is_text t = true ->
    (weight t <= fuel)%nat ->
    output fuel H buf (Some a) = Some (Ok (buf +:+ text_extraction t)).
Proof.
  induction fuel as [|fuel IH]; intros t a buf Hr Hl Hw;
    [destruct t; simpl in Hw; lia|].
  inversion Hr as [a' nd kids Ha Hk]; subst.
  simpl in Hw, Hl. apply andb_prop in Hl as [Hleaf Hall].
  assert (Hloop :
    for_siblings fuel H (output fuel H) buf (html.FirstChild nd) =
    Some (Ok (buf +:+ join (map text_extraction kids)))).
  { rewrite <- foldl_append.
    apply for_siblings_forest; [exact Hk| |].
    - pose proof (weight_length kids). lia.
    - intros k b s Hin Hrk. apply IH; [exact Hrk| |].
      + eapply leaves_elem; eassumption.
      + pose proof (weight_elem k kids Hin). lia. }
  assert (Hjoin : join (map text_extraction kids) =
                  join (concat (map text_nodes kids))).
  { rewrite join_concat, map_map. reflexivity. }
  simpl. rewrite Ha. unfold text_extraction at 1. simpl.
  destruct (html.Type_ nd) eqn:Ety; simpl;
    try (rewrite Hloop, Hjoin; reflexivity).
  - unfold is_text in Hleaf. simpl in Hleaf.
    apply bool_decide_eq_true in Hleaf. subst kids.
    change (join (concat (map text_nodes []))) with "".
    rewrite append_nil_r. reflexivity.
  - change (join []) with "". rewrite append_nil_r. reflexivity.
Qed.

(** The content of comments does not enter the extracted text. *)
Lemma text_extraction_blank (t : tree) :
  text_extraction (blank_comments t) = text_extraction t.
Proof.
  unfold text_extraction. f_equal.
  induction t as [ty data attrs kids IH] using tree_induction.
  assert (Hk : map text_nodes (map blank_comments kids) = map text_nodes kids).
  { rewrite map_map. apply map_ext_Forall. exact IH. }
  destruct ty; simpl; rewrite ?Hk; reflexivity.
Qed.

(** C7.  On a node of a DOM tree (text nodes being leaves), [InnerText]
    returns, and its result is the concatenation in document order of the
    data of the text nodes of the subtree that are not below a comment;
    elements contribute no markup.  The content of comments has no part
    in it: two documents that differ only inside their comments have the
    same [InnerText]. *)
Theorem InnerText_text_extraction (H : heap) (a : addr) (t : tree)
    (fuel : nat) :
  repr H (Some a) t ->
  leaves is_text t = true ->
  (weight t <= fuel)%nat ->
  InnerText fuel H (Some a) = Some (Ok (text_extraction t)) /\
  (forall (H' : heap) (a' : addr) (t' : tree) (fuel' : nat),
     repr H' (Some a') t' ->
     leaves is_text t' = true ->
     (weight t' <= fuel')%nat ->
     blank_comments t' = blank_comments t ->
     InnerText fuel' H' (Some a') = InnerText fuel H (Some a)).
Proof.
  intros Hr Hl Hw. unfold InnerText.
  assert (Hout : forall H a t fuel,
    repr H (Some a) t -> leaves is_text t = true -> (weight t <= fuel)%nat ->
    output fuel H "" (Some a) = Some (Ok (text_extraction t))).
  { intros H0 a0 t0 fuel0 Hr0 Hl0 Hw0.
    rewrite (output_repr H0 fuel0 t0) by assumption. reflexivity. }
  split; [apply Hout; assumption|].
  intros H' a' t' fuel' Hr' Hl' Hw' Hb.
  rewrite (Hout H' a' t'), (Hout H a t) by assumption.
  rewrite <- (text_extraction_blank t'), Hb, text_extraction_blank.
  reflexivity.
Qed.

(** ** OutputHTML *)

Lemma Render_repr (escape : string -> string) (H : heap) (fuel : nat) :
  forall (t : tree) (a : addr) (buf : string),
    repr H (Some a) t ->
    (weight t <= fuel)%nat ->
    Render escape fuel H buf (Some a) =
      Some (Ok (buf +:+ render_tree escape t)).
Proof.
  induction fuel as [|fuel IH]; intros t a buf Hr Hw;
    [destruct t; simpl in Hw; lia|].
  inversion Hr as [a' nd kids Ha Hk]; subst.
  simpl in Hw.
  assert (Hloop : forall buf0,
    for_siblings fuel H (Render escape fuel H) buf0 (html.FirstChild nd) =
    Some (Ok (buf0 +:+ join (map (render_tree escape) kids)))).
  { intros buf0. rewrite <- foldl_append.
    apply for_siblings_forest; [exact Hk| |].
    - pose proof (weight_length kids). lia.
    - intros k b s Hin Hrk. apply IH; [exact Hrk|].
      pose proof (weight_elem k kids Hin). lia. }
  simpl. rewrite Ha.
  destruct (html.Type_ nd) eqn:Ety; simpl;
    rewrite ?Hloop, ?append_nil_r, ?append_assoc; reflexivity.
Qed.

Lemma render_tree_has_comment (escape : string -> string) (d : string)
    (t : tree) :
  has_comment d t ->
  leaves is_leaf_kind t = true ->
  contains (render_tree escape t) (comment_markup d).
Proof.
  induction 1 as [attrs kids|ty data attrs kids k Hin Hc IH]; intros Hl.
  - apply contains_refl.
  - simpl in Hl. apply andb_prop in Hl as [Hleaf Hall].
    specialize (IH (leaves_elem _ _ _ Hin Hall)).
    pose proof (contains_trans _ _ _
                  (contains_join (render_tree escape) kids k Hin) IH) as Hj.
    destruct ty; simpl in Hleaf |- *;
      try (apply bool_decide_eq_true in Hleaf; subst kids;
           apply elem_of_nil in Hin; contradiction).
    + exact Hj.
    + apply contains_app_l, contains_app_r, Hj.
Qed.

Lemma comment_markup_contains (d : string) : contains (comment_markup d) d.
Proof. exists "<!--", "-->". reflexivity. Qed.

(** C8.  With [self = true], [OutputHTML] is the rendering of the node
    itself, for an element its own tag around its children; with
    [self = false] it is the renderings of the children, one after the
    other in document order.  With the renderer of the specification and
    on a DOM tree (only documents and elements have children), the output
    for [self = true] holds the markup of every comment of the subtree
    with its data verbatim, while [InnerText] on the same node is the text
    of the tree whose comments are emptied. *)
Theorem OutputHTML_self_and_comments (escape : string -> string) (H : heap)
    (a : addr) (t : tree) (fuel : nat) :
  repr H (Some a) t ->
  (weight t <= fuel)%nat ->
  (forall R : heap -> string -> ptr -> comp string,
     OutputHTML R fuel H (Some a) true = R H "" (Some a)) /\
  OutputHTML (Render escape fuel) fuel H (Some a) true =
    Some (Ok (render_tree escape t)) /\
  OutputHTML (Render escape fuel) fuel H (Some a) false =
    Some (Ok (join (map (render_tree escape) (children t)))) /\
  (forall data attrs kids, t = Tree html.ElementNode data attrs kids ->
     render_tree escape t =
       open_tag escape data attrs +:+ join (map (render_tree escape) kids)
       +:+ close_tag data) /\
  (leaves is_leaf_kind t = true ->
   forall d out, has_comment d t ->
     OutputHTML (Render escape fuel) fuel H (Some a) true = Some (Ok out) ->
     contains out (comment_markup d) /\ contains out d) /\
  (leaves is_text t = true ->
   InnerText fuel H (Some a) =
     Some (Ok (text_extraction (blank_comments t)))).
Proof.
  intros Hr Hw.
  assert (Hself : OutputHTML (Render escape fuel) fuel H (Some a) true =
                  Some (Ok (render_tree escape t))).
  { unfold OutputHTML. rewrite (Render_repr escape H fuel t) by assumption.
    reflexivity. }
  split; [reflexivity|]. split; [exact Hself|]. split; [|split; [|split]].
  - inversion Hr as [a' nd kids Ha Hk]; subst.
    unfold OutputHTML. rewrite (deref_Some _ _ _ Ha). simpl in Hw |- *.
    rewrite <- (append_nil_l (join _)), <- foldl_append.
    apply for_siblings_forest; [exact Hk| |].
    + pose proof (weight_length kids). lia.
    + intros k b s Hin Hrk. apply Render_repr; [exact Hrk|].
      pose proof (weight_elem k kids Hin). lia.
  - intros data attrs kids ->. reflexivity.
  - intros Hl d out Hc. rewrite Hself. intros [= <-].
    pose proof (render_tree_has_comment escape d t Hc Hl) as Hm.
    split; [exact Hm|].
    eapply contains_trans; [exact Hm|apply comment_markup_contains].
  - intros Hl. unfold InnerText.
    rewrite (output_repr H fuel t) by assumption.
    rewrite text_extraction_blank. reflexivity.
Qed.

(** ** The query facade *)

Section FacadeProperties.

Variable Expr : Type.
Variable Compile : string -> Expr + string.
Variable Select : Expr -> heap -> NodeNavigator -> list Navigator.

Lemma Find_loop_positions (navs : list NodeNavigator) :
  forall elems,
    Find_loop (positions navs) elems = Ok (elems ++ map Current navs).
Proof.
  induction navs as [|n navs IH]; intros elems; simpl.
  - rewrite app_nil_r. reflexivity.
  - rewrite IH, <- app_assoc. reflexivity.
Qed.

Lemma FindEach_loop_positions {St : Type} (cb : Z -> ptr -> St -> St)
    (navs : list NodeNavigator) :
  forall (k : nat) (st : St),
    FindEach_loop (positions navs) (Z.of_nat k) cb st =
      Ok (callbacks cb k (map Current navs) st).
Proof.
  induction navs as [|n navs IH]; intros k st; simpl; [reflexivity|].
  replace (Z.of_nat k + 1) with (Z.of_nat (S k)) by lia.
  rewrite IH. reflexivity.
Qed.

(** C10.  When the engine delivers the positions [navs], [Find] returns
    their [curr] nodes in the same order, [FindOne] the [curr] of the
    first, and [FindEach] calls back with index and [curr] of each; the
    [attr] of a position is never read.  A position on an attribute
    ([attr != -1]) therefore yields the node [curr], on which the
    attribute sits, exactly as the same position with [attr = -1]
    does. *)
Theorem Find_unwraps_current (H : heap) (top : ptr) (expr : string)
    (exp : Expr) (navs : list NodeNavigator) :
  Compile expr = inl exp ->
  Select exp H (CreateXPathNavigator top) = positions navs ->
  Find Expr Compile Select H top expr = Ok (map Current navs, None) /\
  FindOne Expr Compile Select H top expr =
    Ok (from_option Current None (head navs), None) /\
  (forall (St : Type) (cb : Z -> ptr -> St -> St) (st : St),
     FindEach Expr Compile Select H top expr cb st =
       Ok (callbacks cb 0 (map Current navs) st, None)) /\
  (forall (i : nat) (n : NodeNavigator),
     navs !! i = Some n -> attr n <> -1 ->
     map Current navs !! i = Some (curr n)) /\
  (forall Select' : Expr -> heap -> NodeNavigator -> list Navigator,
     Select' exp H (CreateXPathNavigator top) =
       positions (map (fun n => set_attr n (-1)) navs) ->
     Find Expr Compile Select' H top expr =
       Find Expr Compile Select H top expr).
Proof.
  intros Hc Hs. repeat split.
  - unfold Find. rewrite Hc, Hs, Find_loop_positions. reflexivity.
  - unfold FindOne. rewrite Hc, Hs. destruct navs; reflexivity.
  - intros St cb st. unfold FindEach. rewrite Hc, Hs.
    rewrite (FindEach_loop_positions cb navs 0). reflexivity.
  - intros i n Hi _. rewrite list_lookup_fmap, Hi. reflexivity.
  - intros Select' Hs'. unfold Find.
    rewrite Hc, Hs, Hs', !Find_loop_positions, map_map. reflexivity.
Qed.

End FacadeProperties.

(** * The properties on the sample document *)

Module Checks.

Import Sample.

(** The walk document, doctype, [html], [head], [body], [header], [b] and
    on to the second attribute of [b], with a jump to the [lang] attribute
    of [html] and back in between. *)
Lemma attr_invariant_preserved_witness :
  attr_invariant Hplain (mkNav (Some doc) (Some b) 1).
Proof.
  apply (attr_invariant_preserved Hplain (Some doc)
           [OpMoveToChild; OpMoveToNextAttribute; OpMoveToNext;
            OpMoveTo (HtmlNavigator (Some (mkNav (Some doc) (Some html_) 0)));
            OpMoveToParent; OpMoveToChild; OpMoveToNext; OpMoveToChild;
            OpMoveToNext; OpMoveToNextAttribute; OpMoveToNextAttribute]).
  - unfold attrs_on_elements_only. apply (bool_decide_unpack _).
    vm_compute. exact I.
  - repeat constructor. intros _. eexists. split; reflexivity.
  - reflexivity.
Defined.

Lemma MoveToParent_spec_witness :
  MoveToParent H (mkNav (Some doc) (Some b) 0) =
    Ok (true, mkNav (Some doc) (Some b) (-1)) /\
  MoveToParent H (mkNav (Some doc) (Some b) (-1)) =
    Ok (true, mkNav (Some doc) (Some body) (-1)) /\
  MoveToParent H (mkNav (Some doc) (Some doc) (-1)) =
    Ok (false, mkNav (Some doc) (Some doc) (-1)) /\
  MoveToParent H (mkNav (Some doc) (Some b) 0) =
    Ok (true, mkNav (Some doc) (Some b) (-1)).
Proof.
  split; [|split; [|split]].
  - apply (proj1 (MoveToParent_spec H (mkNav (Some doc) (Some b) 0))).
    simpl. lia.
  - refine (proj1 (proj2 (MoveToParent_spec H
                            (mkNav (Some doc) (Some b) (-1)))) eq_refl
              (node (Some body) None None (Some header) None
                 html.ElementNode "b" [at_ "attr" "1"; at_ "id" "x"]) _).
    reflexivity.
  - refine (proj1 (proj2 (MoveToParent_spec H
                            (mkNav (Some doc) (Some doc) (-1)))) eq_refl
              (node None (Some doctype) (Some html_) None None
                 html.DocumentNode "" []) _).
    reflexivity.
  - apply (proj2 (proj2 (MoveToParent_spec H
                           (mkNav (Some doc) (Some b) (-1))))); reflexivity.
Defined.

Lemma MoveToNextAttribute_enumerates_witness :
  MoveToNextAttribute_times 3 H (mkNav (Some doc) (Some b) (-1)) =
    Ok ([true; true; false], mkNav (Some doc) (Some b) 1).
Proof.
  refine (proj1 (proj2 (MoveToNextAttribute_enumerates H
            (mkNav (Some doc) (Some b) (-1))
            (node (Some body) None None (Some header) None
               html.ElementNode "b" [at_ "attr" "1"; at_ "id" "x"]) _ _)));
    reflexivity.
Defined.

Lemma NodeType_classification_witness :
  NodeType H (mkNav (Some doc) (Some b) 1) = Ok xpath.AttributeNode /\
  NodeType H (mkNav (Some doc) (Some doctype) (-1)) = Ok xpath.RootNode /\
  exists msg,
    NodeType H (mkNav (Some other_doc) (Some raw) (-1)) = Panic (PanicMsg msg).
Proof.
  split; [|split].
  - refine (proj1 (proj2 (proj2 (proj2 (proj2 (proj2
             (NodeType_classification H (mkNav (Some doc) (Some b) 1)
                (node (Some body) None None (Some header) None
                   html.ElementNode "b" [at_ "attr" "1"; at_ "id" "x"])
                eq_refl)))))) eq_refl _).
    simpl. lia.
  - refine (proj1 (proj2 (proj2 (proj2
             (NodeType_classification H
                (mkNav (Some doc) (Some doctype) (-1))
                (node (Some doc) None None None (Some html_)
                   html.DoctypeNode "html"
                   [at_ "public" "-//W3C//DTD HTML 4.01//EN";
                    at_ "system" "http://www.w3.org/TR/html4/strict.dtd"])
                eq_refl)))) eq_refl).
  - refine (proj1 (proj2 (proj2 (proj2 (proj2 (proj2 (proj2
             (NodeType_classification H
                (mkNav (Some other_doc) (Some raw) (-1))
                (node (Some other_doc) None None None None
                   html.RawNode "<hr>" [])
                eq_refl)))))) _)).
    apply (bool_decide_unpack _). vm_compute. exact I.
Defined.

Lemma MoveTo_spec_witness :
  MoveTo (mkNav (Some doc) (Some html_) (-1))
         (HtmlNavigator (Some (mkNav (Some other_doc) (Some raw) (-1)))) =
    Ok (false, mkNav (Some doc) (Some html_) (-1)).
Proof.
  refine (proj2 (MoveTo_spec (mkNav (Some doc) (Some html_) (-1))
                   (ForeignNavigator "xml") _)
            H (Some doc) (Some other_doc)
            [OpMoveToChild; OpMoveToNext] [OpMoveToChild]
            (mkNav (Some other_doc) (Some raw) (-1)) _ _ _);
    [discriminate | discriminate | reflexivity | reflexivity].
Defined.

Lemma header_repr : repr H (Some header) header_tree.
Proof. unfold header_tree, leaf. solve_repr. Defined.

Lemma InnerText_text_extraction_witness :
  InnerText 12 H (Some header) = Some (Ok " City Gallery ").
Proof.
  refine (proj1 (InnerText_text_extraction H header header_tree 12
                   header_repr eq_refl _)).
  vm_compute. repeat constructor.
Defined.

(** The check of the package's test: the text of [header] is without the
    word of its comment. *)
Lemma header_text_without_comment :
  InnerText 12 H (Some header) = Some (Ok " City Gallery ") /\
  ~ contains " City Gallery " "Logo".
Proof.
  split; [reflexivity|].
  rewrite <- containsb_spec. vm_compute. discriminate.
Qed.

Lemma OutputHTML_self_and_comments_witness :
  contains "<header> <!-- Logo --><h1>City Gallery</h1> </header>"
           " Logo ".
Proof.
  refine (proj2 (proj1 (proj2 (proj2 (proj2 (proj2
            (OutputHTML_self_and_comments id H header header_tree 12
               header_repr _))))) eq_refl " Logo " _ _ eq_refl)).
  - vm_compute. repeat constructor.
  - unfold header_tree, leaf.
    eapply has_comment_below; [|apply has_comment_here].
    apply list_elem_of_In. simpl. auto.
Defined.

Lemma MoveToFirst_spec_witness :
  MoveToFirst 2 H (mkNav (Some doc) (Some html_) (-1)) =
    Some (Ok (true, mkNav (Some doc) (Some doctype) (-1))).
Proof.
  destruct (proj2 (proj2 (MoveToFirst_spec H
                            (mkNav (Some doc) (Some html_) (-1)) 2))
              [doctype; html_] 1%nat html_) as [first [Hfirst [Hmove _]]].
  - simpl. repeat split; eexists; split; reflexivity.
  - reflexivity.
  - reflexivity.
  - lia.
  - injection Hfirst as <-. apply Hmove; [reflexivity | lia].
Defined.

(** An engine that answers every expression with the attribute [attr] of
    the element [b], as it would for [//b/@attr]. *)
Lemma Find_unwraps_current_witness :
  Find unit (fun _ => inl tt)
       (fun _ _ nav => positions [mkNav (root nav) (Some b) 0])
       H (Some doc) "//b/@attr" = Ok ([Some b], None).
Proof.
  refine (proj1 (Find_unwraps_current unit (fun _ => inl tt)
            (fun _ _ nav => positions [mkNav (root nav) (Some b) 0])
            H (Some doc) "//b/@attr" tt [mkNav (Some doc) (Some b) 0]
            eq_refl eq_refl)).
Defined.

End Checks.

(** * Further properties of the navigator *)

(** ** What a call never does *)

(** X1.  A move that returns false has not touched the cursor: this holds
    for [MoveToParent], [MoveToNextAttribute], [MoveToChild],
    [MoveToFirst], [MoveToNext], [MoveToPrevious] and [MoveTo]. *)
Theorem false_leaves_cursor (H : heap) (h h' : NodeNavigator) :
  (MoveToParent H h = Ok (false, h') -> h' = h) /\
  (MoveToNextAttribute H h = Ok (false, h') -> h' = h) /\
  (MoveToChild H h = Ok (false, h') -> h' = h) /\
  (forall fuel, MoveToFirst fuel H h = Some (Ok (false, h')) -> h' = h) /\
  (MoveToNext H h = Ok (false, h') -> h' = h) /\
  (MoveToPrevious H h = Ok (false, h') -> h' = h) /\
  (forall other, MoveTo h other = Ok (false, h') -> h' = h).
Proof.
  split; [|split; [|split; [|split; [|split; [|split]]]]].
  - unfold MoveToParent; step_move; intros [= <-] || discriminate;
      reflexivity.
  - unfold MoveToNextAttribute; step_move; intros [= <-] || discriminate;
      reflexivity.
  - unfold MoveToChild; step_move; intros [= <-] || discriminate;
      reflexivity.
  - intros fuel. unfold MoveToFirst.
    destruct (decide (attr h <> -1)); [intros [= <-]; reflexivity|].
    destruct (deref H (curr h)) as [nd|]; [|discriminate].
    destruct (html.PrevSibling nd); [|intros [= <-]; reflexivity].
    destruct (MoveToFirst_loop fuel H h) as [[h1|]|]; discriminate.
  - unfold MoveToNext; step_move; intros [= <-] || discriminate;
      reflexivity.
  - unfold MoveToPrevious; step_move; intros [= <-] || discriminate;
      reflexivity.
  - intros other. unfold MoveTo.
    destruct other as [|[node|]|]; try discriminate;
      try (intros [= <-]; reflexivity).
    destruct (decide (root node <> root h)); [|discriminate].
    intros [= <-]; reflexivity.
Qed.

(** X2.  Whatever calls a navigator created on [top] has received,
    [root] is still [top], so [MoveToRoot] puts [curr] back on [top]. *)
Theorem MoveToRoot_returns_to_top (H : heap) (top : ptr) (ops : list op)
    (h : NodeNavigator) :
  run H ops (CreateXPathNavigator top) = Some (Ok h) ->
  root h = top /\ curr (MoveToRoot h) = top /\
  run H (ops ++ [OpMoveToRoot]) (CreateXPathNavigator top) =
    Some (Ok (mkNav top top (attr h))).
Proof.
  intros Hr. pose proof (run_root _ _ _ _ Hr) as Hroot. simpl in Hroot.
  split; [exact Hroot|]. split; [exact Hroot|].
  revert Hr Hroot. generalize (CreateXPathNavigator top).
  induction ops as [|o ops IH]; intros h0; simpl.
  - intros [= ->] Hroot. unfold MoveToRoot, set_curr. rewrite Hroot.
    reflexivity.
  - destruct (exec H o h0) as [[h1|]|] eqn:E; try discriminate.
    intros Hr Hroot. apply IH; assumption.
Qed.

(** X3.  Backtracking: a copy taken before any sequence of calls is a
    position the cursor can return to; [MoveTo] with the copy succeeds and
    restores the cursor exactly. *)
Theorem MoveTo_restores_snapshot (H : heap) (ops : list op)
    (h h' : NodeNavigator) :
  run H ops h = Some (Ok h') ->
  MoveTo h' (HtmlNavigator (Some (Copy h))) = Ok (true, h).
Proof.
  intros Hr. apply run_root in Hr. unfold MoveTo, Copy.
  rewrite decide_False by (intros Hne; apply Hne; symmetry; exact Hr).
  rewrite Hr. destruct h; reflexivity.
Qed.

(** X4.  On an attribute position the moves to a child or a sibling do
    nothing: any sequence of [MoveToChild], [MoveToFirst], [MoveToNext]
    and [MoveToPrevious] returns with the cursor as it was, and none of
    them dereferences [curr]. *)
Theorem sideways_from_attribute (H : heap) (ops : list op)
    (h : NodeNavigator) :
  attr h <> -1 ->
  forallb is_sideways ops = true ->
  run H ops h = Some (Ok h) /\
  MoveToChild H h = Ok (false, h) /\
  MoveToNext H h = Ok (false, h) /\
  MoveToPrevious H h = Ok (false, h).
Proof.
  intros Hne Hops.
  assert (Hc : MoveToChild H h = Ok (false, h))
    by (unfold MoveToChild; rewrite decide_True by assumption; reflexivity).
  assert (Hn : MoveToNext H h = Ok (false, h))
    by (unfold MoveToNext; rewrite decide_True by assumption; reflexivity).
  assert (Hp : MoveToPrevious H h = Ok (false, h))
    by (unfold MoveToPrevious; rewrite decide_True by assumption;
        reflexivity).
  repeat (split; [|assumption]) || split; try assumption.
  induction ops as [|o ops IH]; simpl in *; [reflexivity|].
  apply andb_prop in Hops as [Ho Hops].
  destruct o; try discriminate; simpl; rewrite ?Hc, ?Hn, ?Hp; simpl; auto.
  unfold MoveToFirst. rewrite decide_True by assumption. simpl. auto.
Qed.

(** X5.  Where the sibling links agree ([b] is the next sibling of [a]
    and [a] the previous sibling of [b]), [MoveToNext] followed by
    [MoveToPrevious] returns a cursor on [a] to where it was, and
    [MoveToPrevious] followed by [MoveToNext] does so for a cursor on
    [b]. *)
Theorem MoveToNext_MoveToPrevious_inverse (H : heap) (h : NodeNavigator)
    (a b : addr) (na nb : html.Node) :
  attr h = -1 ->
  H !! a = Some na -> H !! b = Some nb ->
  html.NextSibling na = Some b ->
  html.PrevSibling nb = Some a ->
  (curr h = Some a ->
   MoveToNext H h = Ok (true, set_curr h (Some b)) /\
   MoveToPrevious H (set_curr h (Some b)) = Ok (true, h)) /\
  (curr h = Some b ->
   MoveToPrevious H h = Ok (true, set_curr h (Some a)) /\
   MoveToNext H (set_curr h (Some a)) = Ok (true, h)).
Proof.
  intros He Ha Hb Hn Hp.
  unfold MoveToNext, MoveToPrevious. simpl.
  rewrite !decide_False by lia.
  split; intros Hc; rewrite Hc; simpl; rewrite Ha, Hb; simpl;
    rewrite Hn, Hp; (split; [reflexivity|]);
    destruct h; simpl in *; subst; reflexivity.
Qed.

(** ** Children and siblings *)

Lemma run_app (H : heap) (ops1 ops2 : list op) :
  forall h h1,
    run H ops1 h = Some (Ok h1) ->
    run H (ops1 ++ ops2) h = run H ops2 h1.
Proof.
  induction ops1 as [|o ops1 IH]; intros h h1; simpl.
  - intros [= ->]. reflexivity.
  - destruct (exec H o h) as [[h0|]|]; try discriminate. apply IH.
Qed.

Lemma next_linked_head (H : heap) (p : ptr) (l : list addr) :
  next_linked H p l -> p = l !! 0%nat.
Proof. destruct l; simpl; [auto|]. intros [Hp _]. exact Hp. Qed.

Lemma next_linked_lookup (H : heap) (l : list addr) :
  forall (p : ptr) (i : nat) (c : addr),
    next_linked H p l ->
    l !! i = Some c ->
    exists nd, H !! c = Some nd /\ html.NextSibling nd = l !! S i.
Proof.
  induction l as [|a l IH]; intros p i c Hl Hi; [discriminate|].
  destruct Hl as [_ [nd [Ha Hl]]].
  destruct i as [|i]; simpl in Hi.
  - injection Hi as <-. exists nd. split; [exact Ha|].
    apply next_linked_head in Hl. exact Hl.
  - apply (IH _ i c Hl Hi).
Qed.

(** [MoveToChild] and [i] calls of [MoveToNext] lead to child [i]. *)
Lemma run_to_child (H : heap) (a : addr) (l : list addr) (i : nat) :
  forall (h : NodeNavigator) (c : addr),
    children_of H a l ->
    attr h = -1 -> curr h = Some a ->
    l !! i = Some c ->
    run H (OpMoveToChild :: replicate i OpMoveToNext) h =
      Some (Ok (set_curr h (Some c))).
Proof.
  induction i as [|i IH]; intros h c Hch He Hc Hi.
  - destruct Hch as [nd [Ha Hl]]. apply next_linked_head in Hl.
    simpl. unfold MoveToChild. rewrite decide_False by lia.
    rewrite Hc. simpl. rewrite Ha. simpl. rewrite Hl, Hi. reflexivity.
  - assert (Hlt : (i < length l)%nat)
      by (apply lookup_lt_Some in Hi; lia).
    apply lookup_lt_is_Some_2 in Hlt as [c' Hi'].
    rewrite replicate_S_end, app_comm_cons.
    rewrite (run_app H _ _ h _ (IH h c' Hch He Hc Hi')).
    destruct Hch as [nd0 [_ Hl]].
    destruct (next_linked_lookup H l _ i c' Hl Hi') as [nd' [Hc' Hn]].
    simpl. unfold MoveToNext. simpl. rewrite decide_False by lia.
    rewrite Hc'. simpl. rewrite Hn, Hi. reflexivity.
Qed.

(** X6.  The children of a node are enumerated by [MoveToChild] followed
    by [MoveToNext]: on a node without children [MoveToChild] returns
    false; otherwise [MoveToChild] and [i] calls of [MoveToNext] stand on
    child [i], and on the last child [MoveToNext] returns false and stays
    there. *)
Theorem children_enumerated (H : heap) (a : addr) (l : list addr)
    (h : NodeNavigator) :
  children_of H a l ->
  attr h = -1 -> curr h = Some a ->
  (l = [] -> MoveToChild H h = Ok (false, h)) /\
  (forall i c, l !! i = Some c ->
     run H (OpMoveToChild :: replicate i OpMoveToNext) h =
       Some (Ok (set_curr h (Some c)))) /\
  (forall c, l !! (length l - 1)%nat = Some c ->
     MoveToNext H (set_curr h (Some c)) = Ok (false, set_curr h (Some c))).
Proof.
  intros Hch He Hc. split; [|split].
  - intros ->. destruct Hch as [nd [Ha Hl]]. simpl in Hl.
    unfold MoveToChild. rewrite decide_False by lia.
    rewrite Hc. simpl. rewrite Ha. simpl. rewrite Hl. reflexivity.
  - intros i c Hi. eapply run_to_child; eassumption.
  - intros c Hi. destruct Hch as [nd [Ha Hl]].
    destruct (next_linked_lookup H l _ _ c Hl Hi) as [nc [Hnc Hn]].
    unfold MoveToNext. simpl. rewrite decide_False by lia.
    rewrite Hnc. simpl. rewrite Hn.
    apply lookup_lt_Some in Hi.
    rewrite (lookup_ge_None_2 l) by lia. reflexivity.
Qed.

(** X7.  Where the children of a node point back to it through [Parent],
    [MoveToParent] from any child reached by [MoveToChild] and
    [MoveToNext] returns the cursor to the node it started on. *)
Theorem child_then_parent (H : heap) (a : addr) (l : list addr) (i : nat)
    (h : NodeNavigator) :
  children_of H a l ->
  (forall c nc, c ∈ l -> H !! c = Some nc -> html.Parent nc = Some a) ->
  attr h = -1 -> curr h = Some a ->
  (i < length l)%nat ->
  run H (OpMoveToChild :: replicate i OpMoveToNext ++ [OpMoveToParent]) h =
    Some (Ok h).
Proof.
  intros Hch Hpar He Hc Hi.
  apply lookup_lt_is_Some_2 in Hi as [c Hi].
  rewrite app_comm_cons.
  rewrite (run_app H _ _ h _ (run_to_child H a l i h c Hch He Hc Hi)).
  destruct Hch as [nd0 [_ Hl]].
  destruct (next_linked_lookup H l _ i c Hl Hi) as [nc [Hnc _]].
  simpl. unfold MoveToParent. simpl. rewrite decide_False by lia.
  rewrite Hnc. simpl.
  rewrite (Hpar c nc) by (eauto using list_elem_of_lookup_2).
  simpl. rewrite <- Hc. destruct h; reflexivity.
Qed.

(** X8.  On a sibling chain [MoveToFirst] does what repeated
    [MoveToPrevious] does: from position [i], [i] calls of
    [MoveToPrevious] reach the first sibling, where one more call returns
    false, and for [i > 0] a single [MoveToFirst] ends on the same
    cursor. *)
Theorem MoveToFirst_is_repeated_MoveToPrevious (H : heap) (l : list addr)
    (i : nat) (a : addr) (h : NodeNavigator) (fuel : nat) :
  sibling_chain H l ->
  l !! i = Some a ->
  curr h = Some a -> attr h = -1 ->
  run H (replicate i OpMoveToPrevious) h = Some (Ok (set_curr h (head l))) /\
  MoveToPrevious H (set_curr h (head l)) = Ok (false, set_curr h (head l)) /\
  (i <> O -> (i < fuel)%nat ->
   run H [OpMoveToFirst fuel] h = run H (replicate i OpMoveToPrevious) h).
Proof.
  intros Hl Hi Hc He.
  assert (Hrun : forall i a h, l !! i = Some a -> curr h = Some a ->
            attr h = -1 ->
            run H (replicate i OpMoveToPrevious) h =
              Some (Ok (set_curr h (head l)))).
  { clear i a h Hi Hc He.
    induction i as [|j IH]; intros a h Hi Hc He.
    - simpl. rewrite set_curr_same; [reflexivity|].
      rewrite Hc. destruct l; [discriminate|]. simpl in Hi |- *. congruence.
    - destruct (prev_linked_lookup H l None _ a Hl Hi) as [nd [Ha Hp]].
      assert (Hlt : (j < length l)%nat)
        by (apply lookup_lt_Some in Hi; lia).
      apply lookup_lt_is_Some_2 in Hlt as [a' Hj].
      simpl. unfold MoveToPrevious. rewrite decide_False by lia.
      rewrite Hc. simpl. rewrite Ha. simpl. rewrite Hp, Hj. simpl.
      rewrite (IH a' (set_curr h (Some a'))) by auto. reflexivity. }
  split; [apply (Hrun i a h); assumption|]. split.
  - destruct l as [|first l']; [discriminate|].
    destruct (prev_linked_lookup H _ None 0%nat first Hl eq_refl)
      as [nd0 [H0 Hp0]].
    unfold MoveToPrevious. simpl. rewrite decide_False by lia.
    rewrite H0. simpl. rewrite Hp0. reflexivity.
  - intros Hi0 Hf. rewrite (Hrun i a h) by assumption.
    destruct (prev_linked_lookup H l None _ a Hl Hi) as [nd [Ha Hp]].
    destruct i as [|j]; [contradiction|].
    assert (Hlt : (j < length l)%nat)
      by (apply lookup_lt_Some in Hi; lia).
    apply lookup_lt_is_Some_2 in Hlt as [a' Hj].
    simpl. unfold MoveToFirst. rewrite decide_False by lia.
    rewrite Hc. simpl. rewrite Ha, Hp, Hj.
    rewrite (MoveToFirst_loop_chain H l (S j) fuel a h Hl Hi Hc Hf).
    reflexivity.
Qed.

(** ** Attribute positions *)

Lemma exec_attr_in_range (H : heap) (o : op) (h h' : NodeNavigator) :
  op_in_range H o ->
  attr_in_range H h ->
  exec H o h = Some (Ok h') ->
  attr_in_range H h'.
Proof.
  intros Hadm Hinv.
  assert (Hstay : forall x, Some (Ok h) = Some (Ok x) -> attr_in_range H x).
  { intros x [= <-]. exact Hinv. }
  assert (Hnode : forall x, attr x = -1 -> attr_in_range H x).
  { intros x He. left. exact He. }
  destruct o; simpl.
  - destruct Hadm.
  - unfold MoveToParent; step_move; try discriminate;
      intros [= <-]; apply Hnode; simpl; lia.
  - unfold MoveToNextAttribute.
    destruct (deref H (curr h)) as [nd|] eqn:Hd; simpl; [|discriminate].
    case_decide as Hge; simpl; [apply Hstay|].
    intros [= <-]. right. exists nd. simpl. split; [exact Hd|].
    destruct Hinv as [He|[nd' [Hd' Hr]]]; [lia|].
    rewrite Hd in Hd'. injection Hd' as <-. lia.
  - unfold MoveToChild; step_move; try discriminate; try apply Hstay;
      intros [= <-]; apply Hnode; simpl; lia.
  - unfold MoveToFirst.
    destruct (decide (attr h <> -1)); [apply Hstay|].
    destruct (deref H (curr h)) as [nd|]; [|discriminate].
    destruct (html.PrevSibling nd); [|apply Hstay].
    destruct (MoveToFirst_loop fuel H h) as [[h1|]|] eqn:E;
      simpl; try discriminate.
    intros [= <-]. apply Hnode.
    rewrite (MoveToFirst_loop_attr _ _ _ _ E). lia.
  - unfold MoveToNext; step_move; try discriminate; try apply Hstay;
      intros [= <-]; apply Hnode; simpl; lia.
  - unfold MoveToPrevious; step_move; try discriminate; try apply Hstay;
      intros [= <-]; apply Hnode; simpl; lia.
  - unfold MoveTo. destruct other as [|[node|]|]; simpl;
      try discriminate; try apply Hstay.
    destruct (decide (root node <> root h)); simpl; [apply Hstay|].
    intros [= <-]. exact Hadm.
  - apply Hstay.
Qed.

Lemma index_in_range {A} (l : list A) (i : Z) :
  0 <= i < len l -> exists x, l !! Z.to_nat i = Some x /\ index l i = Ok x.
Proof.
  intros Hr. unfold index. rewrite decide_True by lia.
  destruct (lookup_lt_is_Some_2 l (Z.to_nat i)) as [x Hx];
    [unfold len in Hr; lia|].
  exists x. rewrite Hx. split; reflexivity.
Qed.

(** X9.  A navigator that has received any moves but [MoveToRoot] (and
    [MoveTo] only towards cursors with an index in range) has [attr = -1]
    or [0 <= attr < len(curr.Attr)].  On an attribute position
    [LocalName] therefore returns the key of that attribute without an
    index panic, and on an element [Value] returns its value. *)
Theorem attr_stays_in_range (H : heap) (top : ptr) (ops : list op)
    (h : NodeNavigator) :
  Forall (op_in_range H) ops ->
  run H ops (CreateXPathNavigator top) = Some (Ok h) ->
  attr_in_range H h /\
  (attr h <> -1 ->
   exists nd a,
     deref H (curr h) = Ok nd /\
     html.Attr nd !! Z.to_nat (attr h) = Some a /\
     LocalName H h = Ok (html.Key a) /\
     (html.Type_ nd = html.ElementNode ->
      forall fuel, Value fuel H h = Some (Ok (html.Val a)))).
Proof.
  intros Hops Hr.
  assert (Hin : attr_in_range H h).
  { assert (Hfresh : attr_in_range H (CreateXPathNavigator top))
      by (left; reflexivity).
    revert Hfresh Hr. generalize (CreateXPathNavigator top).
    induction Hops as [|o ops Ho Hops IH]; intros h0 Hinv; simpl.
    - intros [= <-]. exact Hinv.
    - destruct (exec H o h0) as [[h1|]|] eqn:E; try discriminate.
      apply IH. eapply exec_attr_in_range; eassumption. }
  split; [exact Hin|]. intros Hne.
  destruct Hin as [He|[nd [Hd Hrange]]]; [contradiction|].
  destruct (index_in_range (html.Attr nd) (attr h) Hrange) as [a [Ha Hi]].
  exists nd, a. repeat split; try assumption.
  - unfold LocalName. rewrite Hd. simpl.
    rewrite decide_True by assumption. rewrite Hi. reflexivity.
  - intros Hel fuel. unfold Value. rewrite Hd, Hel.
    rewrite decide_True by assumption. rewrite Hi. reflexivity.
Qed.

Lemma run_attr_invariant (H : heap) (ops : list op) :
  attrs_on_elements_only H ->
  Forall (op_admitted H) ops ->
  forall h h',
    attr_invariant H h ->
    run H ops h = Some (Ok h') ->
    attr_invariant H h'.
Proof.
  intros Hel Hops.
  induction Hops as [|o ops Ho Hops IH]; intros h h' Hinv; simpl.
  - intros [= <-]. exact Hinv.
  - destruct (exec H o h) as [[h1|]|] eqn:E; try discriminate.
    apply IH. eapply exec_attr_invariant; eassumption.
Qed.

(** X10.  On a heap where only elements carry attributes, a navigator
    that has received any moves but [MoveToRoot] reports the category
    Attribute exactly when its attribute index is set. *)
Theorem AttributeNode_iff_attr_set (H : heap) (top : ptr) (ops : list op)
    (h : NodeNavigator) (nd : html.Node) :
  attrs_on_elements_only H ->
  Forall (op_admitted H) ops ->
  run H ops (CreateXPathNavigator top) = Some (Ok h) ->
  deref H (curr h) = Ok nd ->
  (NodeType H h = Ok xpath.AttributeNode <-> attr h <> -1).
Proof.
  intros Hel Hops Hr Hd.
  assert (Hinv : attr_invariant H h).
  { eapply run_attr_invariant; try eassumption.
    intros Hne. simpl in Hne. contradiction. }
  unfold NodeType. rewrite Hd. simpl. split.
  - destruct (html.Type_ nd); try discriminate.
    case_decide; [auto|discriminate].
  - intros Hne. destruct (Hinv Hne) as [nd' [Hd' Ht]].
    rewrite Hd in Hd'. injection Hd' as <-. rewrite Ht.
    rewrite decide_True by assumption. reflexivity.
Qed.

(** ** SelectAttr *)

Lemma SelectAttr_loop_first (pre post : list html.Attribute)
    (a : html.Attribute) (name : string) :
  Forall (fun x => html.Key x <> name) pre ->
  html.Key a = name ->
  SelectAttr_loop (pre ++ a :: post) name = html.Val a.
Proof.
  intros Hpre Ha. induction Hpre as [|x pre Hx Hpre IH]; simpl.
  - rewrite decide_True by assumption. reflexivity.
  - rewrite decide_False by assumption. exact IH.
Qed.

Lemma SelectAttr_loop_miss (attrs : list html.Attribute) (name : string) :
  Forall (fun x => html.Key x <> name) attrs ->
  SelectAttr_loop attrs name = "".
Proof.
  induction 1 as [|x l Hx Hl IH]; simpl; [reflexivity|].
  rewrite decide_False by assumption. exact IH.
Qed.

(** X11.  [SelectAttr] returns the value of the first attribute whose key
    is [name], whatever follows it (also a second attribute of that
    key); it returns the empty string when no attribute has the key and
    when the node pointer is nil. *)
Theorem SelectAttr_first_match (H : heap) (n : ptr) (nd : html.Node)
    (name : string) :
  deref H n = Ok nd ->
  (forall pre a post,
     html.Attr nd = pre ++ a :: post ->
     Forall (fun x => html.Key x <> name) pre ->
     html.Key a = name ->
     SelectAttr H n name = Ok (html.Val a)) /\
  (Forall (fun x => html.Key x <> name) (html.Attr nd) ->
   SelectAttr H n name = Ok "") /\
  SelectAttr H None name = Ok "".
Proof.
  intros Hd.
  assert (Hsel : SelectAttr H n name =
                 Ok (SelectAttr_loop (html.Attr nd) name)).
  { unfold SelectAttr. destruct n; [|discriminate].
    rewrite Hd. reflexivity. }
  split; [|split; [|reflexivity]].
  - intros pre a post Hattrs Hpre Ha.
    rewrite Hsel, Hattrs, SelectAttr_loop_first by assumption. reflexivity.
  - intros Hall. rewrite Hsel, SelectAttr_loop_miss by assumption.
    reflexivity.
Qed.

Lemma SelectAttr_loop_NoDup (attrs : list html.Attribute) :
  NoDup (map html.Key attrs) ->
  forall i a, attrs !! i = Some a ->
    SelectAttr_loop attrs (html.Key a) = html.Val a.
Proof.
  induction attrs as [|x attrs IH]; intros Hnd i a Hi; [discriminate|].
  simpl in Hnd. apply NoDup_cons in Hnd as [Hx Hnd].
  destruct i as [|i]; simpl in Hi |- *.
  - injection Hi as <-. rewrite decide_True by reflexivity. reflexivity.
  - rewrite decide_False; [eapply IH; eassumption|].
    intros E. apply Hx. rewrite E.
    apply list_elem_of_fmap_2, list_elem_of_lookup_2 with i, Hi.
Qed.

(** X12.  Walking the attributes with the navigator and looking them up
    by name agree: after [i + 1] calls of [MoveToNextAttribute] on a
    node, [LocalName] is the key of attribute [i]; on an element [Value]
    is its value, and when the keys of the node are distinct that value
    is what [SelectAttr] returns for the key. *)
Theorem attribute_walk_agrees_with_SelectAttr (H : heap)
    (h : NodeNavigator) (nd : html.Node) (i : nat) (a : html.Attribute) :
  deref H (curr h) = Ok nd ->
  attr h = -1 ->
  html.Attr nd !! i = Some a ->
  exists hi,
    MoveToNextAttribute_times (S i) H h = Ok (replicate (S i) true, hi) /\
    curr hi = curr h /\ attr hi = Z.of_nat i /\
    LocalName H hi = Ok (html.Key a) /\
    (html.Type_ nd = html.ElementNode ->
     forall fuel, Value fuel H hi = Some (Ok (html.Val a))) /\
    (NoDup (map html.Key (html.Attr nd)) ->
     SelectAttr H (curr h) (html.Key a) = Ok (html.Val a)).
Proof.
  intros Hd He Hi.
  pose proof (lookup_lt_Some _ _ _ Hi) as Hlt.
  exists (set_attr h (Z.of_nat i)).
  assert (Hix : index (html.Attr nd) (Z.of_nat i) = Ok a).
  { unfold index. rewrite decide_True by lia.
    rewrite Nat2Z.id, Hi. reflexivity. }
  split; [|repeat split].
  - rewrite (MoveToNextAttribute_times_true H nd (S i) h Hd)
      by (unfold len; lia).
    do 3 f_equal. lia.
  - unfold LocalName. simpl. rewrite Hd. simpl.
    rewrite decide_True by lia. rewrite Hix. reflexivity.
  - intros Hel fuel. unfold Value. simpl. rewrite Hd, Hel.
    rewrite decide_True by (simpl; lia). simpl. rewrite Hix. reflexivity.
  - intros Hnd. unfold SelectAttr.
    destruct (curr h); [|discriminate]. rewrite Hd. simpl.
    rewrite (SelectAttr_loop_NoDup _ Hnd i a Hi). reflexivity.
Qed.

(** ** Value and InnerText *)

(** X13.  [Value] on a node position: for an element and for a text node
    it is the [InnerText] of the node; for a comment it is the comment's
    data, which [InnerText] leaves out; for every other kind (a document,
    a doctype) it is the empty string even where [InnerText] finds
    text. *)
Theorem Value_by_kind (H : heap) (h : NodeNavigator) (a : addr)
    (ty : html.NodeType) (data : string) (attrs : list html.Attribute)
    (kids : list tree) (fuel : nat) :
  let t := Tree ty data attrs kids in
  repr H (Some a) t ->
  leaves is_text t = true ->
  (weight t <= fuel)%nat ->
  curr h = Some a -> attr h = -1 ->
  InnerText fuel H (curr h) = Some (Ok (text_extraction t)) /\
  (ty = html.ElementNode \/ ty = html.TextNode ->
   Value fuel H h = InnerText fuel H (curr h)) /\
  (ty = html.CommentNode ->
   Value fuel H h = Some (Ok data) /\
   InnerText fuel H (curr h) = Some (Ok "")) /\
  (ty ∉ [html.ElementNode; html.TextNode; html.CommentNode] ->
   Value fuel H h = Some (Ok "")).
Proof.
  intros t Hr Hl Hw Hc He.
  assert (Hin : InnerText fuel H (curr h) = Some (Ok (text_extraction t))).
  { rewrite Hc. unfold InnerText.
    rewrite (output_repr H fuel t) by assumption. reflexivity. }
  split; [exact Hin|].
  inversion Hr as [a' nd kids' Ha Hk]; subst.
  assert (Hd : deref H (curr h) = Ok nd)
    by (rewrite Hc; apply deref_Some; exact Ha).
  unfold Value. rewrite Hd. split; [|split].
  - intros [Hty|Hty]; rewrite Hty.
    + rewrite decide_False by lia. reflexivity.
    + rewrite Hin. unfold text_extraction, t. rewrite Hty.
      simpl in Hl. rewrite Hty in Hl. apply andb_prop in Hl as [Hleaf _].
      apply bool_decide_eq_true in Hleaf. subst kids.
      change (join (text_nodes (Tree html.TextNode (html.Data nd)
                                  (html.Attr nd) [])))
        with (html.Data nd +:+ "").
      rewrite append_nil_r. reflexivity.
  - intros Hty. rewrite Hty. split; [reflexivity|].
    rewrite Hin. unfold t. rewrite Hty. reflexivity.
  - intros Hty. destruct (html.Type_ nd); try reflexivity;
      exfalso; apply Hty; set_solver.
Qed.

Lemma repr_forest_linked (H : heap) (ts : list tree) :
  forall (p : ptr) (l : list addr),
    repr_forest H p ts ->
    next_linked H p l ->
    Forall2 (fun c k => repr H (Some c) k) l ts.
Proof.
  induction ts as [|t ts IH]; intros p l Hr Hl; inversion Hr; subst.
  - destruct l as [|c l]; [constructor|].
    destruct Hl as [Hp _]. discriminate.
  - destruct l as [|c l]; [discriminate|].
    destruct Hl as [Hp [nd' [Hc Hl]]]. injection Hp as <-.
    constructor; [assumption|].
    eapply IH; [eassumption|]. congruence.
Qed.

(** X14.  The text of a node that is neither a text nor a comment is the
    text of its children, one after the other: [InnerText] of the node is
    the concatenation of [InnerText] of each child in document order. *)
Theorem InnerText_of_children (H : heap) (a : addr) (t : tree)
    (l : list addr) (fuel : nat) :
  repr H (Some a) t ->
  leaves is_text t = true ->
  kind t <> html.TextNode -> kind t <> html.CommentNode ->
  (weight t <= fuel)%nat ->
  children_of H a l ->
  exists outs,
    Forall2 (fun c o => InnerText fuel H (Some c) = Some (Ok o)) l outs /\
    InnerText fuel H (Some a) = Some (Ok (join outs)).
Proof.
  intros Hr Hl Hnt Hnc Hw [nd [Ha Hlink]].
  pose proof (output_repr H fuel t a "" Hr Hl Hw) as Hout.
  inversion Hr as [a' nd' kids Ha' Hk]; subst.
  rewrite Ha in Ha'. injection Ha' as <-.
  exists (map text_extraction kids). split.
  - pose proof (repr_forest_linked H kids _ l Hk Hlink) as Hreps.
    simpl in Hl, Hw. apply andb_prop in Hl as [_ Hall].
    assert (Hkids : Forall (fun k => leaves is_text k = true /\
                                     (weight k <= fuel)%nat) kids).
    { apply Forall_forall. intros k Hin. split.
      - eapply leaves_elem; eassumption.
      - pose proof (weight_elem k kids Hin). lia. }
    clear -Hreps Hkids.
    induction Hreps as [|c k l kids Hck Hreps IH]; simpl; constructor.
    + apply Forall_cons in Hkids as [[Hlk Hwk] _].
      unfold InnerText. rewrite (output_repr H fuel k) by assumption.
      reflexivity.
    + apply IH. apply Forall_cons in Hkids as [_ Hkids]. exact Hkids.
  - unfold InnerText. rewrite Hout. do 2 f_equal.
    unfold text_extraction at 1. simpl in Hnt, Hnc |- *.
    rewrite <- (map_map text_nodes join), <- join_concat.
    destruct (html.Type_ nd); try reflexivity; contradiction.
Qed.

(** ** OutputHTML *)

Lemma for_siblings_linked (H : heap) (body : string -> ptr -> comp string)
    (l : list addr) :
  forall (fuel : nat) (p : ptr) (outs : list string) (buf : string),
    next_linked H p l ->
    Forall2 (fun c o => forall b, body b (Some c) = Some (Ok (b +:+ o)))
            l outs ->
    (length l < fuel)%nat ->
    for_siblings fuel H body buf p = Some (Ok (buf +:+ join outs)).
Proof.
  induction l as [|c l IH]; intros fuel p outs buf Hl Houts Hf;
    (destruct fuel as [|fuel]; [simpl in Hf; lia|]);
    inversion Houts; subst; simpl in Hl.
  - subst p. simpl. rewrite append_nil_r. reflexivity.
  - destruct Hl as [-> [nd [Hc Hl]]]. simpl.
    match goal with E : forall b, body b (Some c) = _ |- _ => rewrite E end.
    rewrite Hc.
    erewrite IH; [|eassumption|eassumption|simpl in Hf; lia].
    rewrite append_assoc. reflexivity.
Qed.

(** X15.  For a renderer that appends to its buffer, the inner markup of
    a node is the outer markup of its children in document order:
    [OutputHTML] with [self = false] returns the concatenation of what
    [OutputHTML] with [self = true] returns on each child; on a node
    without children that is the empty string. *)
Theorem OutputHTML_inner_is_children_outer
    (R : heap -> string -> ptr -> comp string) (H : heap) (a : addr)
    (l : list addr) (outs : list string) (fuel : nat) :
  children_of H a l ->
  (forall buf c o, c ∈ l ->
     R H "" (Some c) = Some (Ok o) ->
     R H buf (Some c) = Some (Ok (buf +:+ o))) ->
  Forall2 (fun c o => OutputHTML R fuel H (Some c) true = Some (Ok o))
          l outs ->
  (length l < fuel)%nat ->
  OutputHTML R fuel H (Some a) false = Some (Ok (join outs)) /\
  (l = [] -> OutputHTML R fuel H (Some a) false = Some (Ok "")).
Proof.
  intros [nd [Ha Hl]] Happ Houts Hf.
  assert (Hres : OutputHTML R fuel H (Some a) false = Some (Ok (join outs))).
  { unfold OutputHTML. rewrite (deref_Some _ _ _ Ha).
    rewrite <- (append_nil_l (join outs)).
    apply (for_siblings_linked H (R H) l); [exact Hl| |exact Hf].
    assert (Hgen : forall l0 outs0,
      (forall c, c ∈ l0 -> c ∈ l) ->
      Forall2 (fun c o => OutputHTML R fuel H (Some c) true = Some (Ok o))
              l0 outs0 ->
      Forall2 (fun c o => forall b, R H b (Some c) = Some (Ok (b +:+ o)))
              l0 outs0).
    { intros l0 outs0 Hin Hall.
      induction Hall as [|c o l0 outs0 Hco Hall IH]; constructor.
      - intros b. apply Happ; [apply Hin; left|exact Hco].
      - apply IH. intros c' Hc'. apply Hin. right. exact Hc'. }
    apply Hgen; auto. }
  split; [exact Hres|].
  intros ->. inversion Houts; subst. exact Hres.
Qed.

(** ** The facade, whatever the engine delivers *)

Section FacadeAgreement.

Variable Expr : Type.
Variable Compile : string -> Expr + string.
Variable Select : Expr -> heap -> NodeNavigator -> list Navigator.

Lemma Find_loop_nodes (t : list Navigator) :
  forall acc r,
    Find_loop t acc = Ok r ->
    exists nodes,
      r = acc ++ nodes /\ Forall2 (fun pos n => unwrap pos = Ok n) t nodes.
Proof.
  induction t as [|pos t IH]; intros acc r; simpl.
  - intros [= <-]. exists []. rewrite app_nil_r. split; constructor.
  - destruct (unwrap pos) as [n|] eqn:E; simpl; [|discriminate].
    intros Hr. destruct (IH _ _ Hr) as [nodes [-> Hall]].
    exists (n :: nodes). rewrite <- app_assoc. split; [reflexivity|].
    constructor; assumption.
Qed.

Lemma FindEach_loop_nodes {St : Type} (cb : Z -> ptr -> St -> St)
    (t : list Navigator) (nodes : list ptr) :
  Forall2 (fun pos n => unwrap pos = Ok n) t nodes ->
  forall (k : nat) (st : St),
    FindEach_loop t (Z.of_nat k) cb st = Ok (callbacks cb k nodes st).
Proof.
  induction 1 as [|pos n t nodes Hn Hall IH]; intros k st; simpl;
    [reflexivity|].
  rewrite Hn. simpl.
  replace (Z.of_nat k + 1) with (Z.of_nat (S k)) by lia.
  rewrite IH. reflexivity.
Qed.

Lemma callbacks_count (nodes : list ptr) :
  forall (k c : nat),
    callbacks (fun _ _ n => S n) k nodes c = (length nodes + c)%nat.
Proof.
  unfold callbacks.
  induction nodes as [|n nodes IH]; intros k c; simpl; [reflexivity|].
  rewrite IH. lia.
Qed.

(** X16.  The three query functions agree.  When the expression does not
    compile, each returns the error, no node, and the callback is not
    called.  When [Find] returns the nodes [elems], [FindOne] returns the
    first of them (nil when there is none, without an error), and
    [FindEach] calls back on exactly these nodes in this order with the
    indices 0, 1, ...: a counting callback ends at [len(elems)]. *)
Theorem facade_agreement (H : heap) (top : ptr) (expr : string) :
  (forall err, Compile expr = inr err ->
     Find Expr Compile Select H top expr = Ok ([], Some err) /\
     FindOne Expr Compile Select H top expr = Ok (None, Some err) /\
     forall (St : Type) (cb : Z -> ptr -> St -> St) (st : St),
       FindEach Expr Compile Select H top expr cb st = Ok (st, Some err)) /\
  (forall elems,
     Find Expr Compile Select H top expr = Ok (elems, None) ->
     FindOne Expr Compile Select H top expr =
       Ok (from_option id None (head elems), None) /\
     (forall (St : Type) (cb : Z -> ptr -> St -> St) (st : St),
        FindEach Expr Compile Select H top expr cb st =
          Ok (callbacks cb 0 elems st, None)) /\
     FindEach Expr Compile Select H top expr (fun _ _ n => S n) O =
       Ok (length elems, None)).
Proof.
  split.
  - intros err Hc. unfold Find, FindOne, FindEach. rewrite Hc.
    repeat split.
  - intros elems. unfold Find, FindOne, FindEach.
    destruct (Compile expr) as [exp|err]; [|discriminate].
    destruct (Find_loop (Select exp H (CreateXPathNavigator top)) [])
      as [r|] eqn:E; simpl; [|discriminate].
    intros [= ->].
    destruct (Find_loop_nodes _ _ _ E) as [nodes [-> Hall]]. simpl.
    assert (Heach : forall (St : Type) (cb : Z -> ptr -> St -> St) st,
      FindEach_loop (Select exp H (CreateXPathNavigator top)) 0 cb st =
        Ok (callbacks cb 0 nodes st)).
    { intros St cb st. apply (FindEach_loop_nodes cb _ _ Hall 0). }
    split; [|split].
    + inversion Hall as [|pos n t ns Hn Hrest]; subst; simpl;
        [reflexivity|]. rewrite Hn. reflexivity.
    + intros St cb st. rewrite Heach. reflexivity.
    + rewrite Heach, callbacks_count, Nat.add_0_r. reflexivity.
Qed.

End FacadeAgreement.

(** * The further properties on the sample document *)

Module MoreChecks.

Import Sample.

(** Spells out a chain of [NextSibling] links in a concrete heap. *)
Ltac solve_linked :=
  simpl;
  repeat (split; [reflexivity|]; eexists; split; [reflexivity|]; simpl);
  reflexivity.

Ltac solve_children := eexists; split; [reflexivity|]; solve_linked.

(** Goes through the members of a concrete list. *)
Ltac each_member Hin :=
  repeat (apply elem_of_cons in Hin as [->|Hin]);
  [..|apply elem_of_nil in Hin; contradiction].

Lemma false_leaves_cursor_witness :
  MoveToParent H (mkNav (Some doc) (Some doc) (-1)) =
    Ok (false, mkNav (Some doc) (Some doc) (-1)) /\
  mkNav (Some doc) (Some doc) (-1) = mkNav (Some doc) (Some doc) (-1).
Proof.
  split; [reflexivity|].
  apply (proj1 (false_leaves_cursor H (mkNav (Some doc) (Some doc) (-1))
                  (mkNav (Some doc) (Some doc) (-1)))).
  reflexivity.
Defined.

Lemma MoveToRoot_returns_to_top_witness :
  run H ([OpMoveToChild; OpMoveToNext; OpMoveToNextAttribute]
         ++ [OpMoveToRoot]) (CreateXPathNavigator (Some doc)) =
    Some (Ok (mkNav (Some doc) (Some doc) 0)).
Proof.
  exact (proj2 (proj2 (MoveToRoot_returns_to_top H (Some doc)
           [OpMoveToChild; OpMoveToNext; OpMoveToNextAttribute]
           (mkNav (Some doc) (Some html_) 0) eq_refl))).
Defined.

Lemma MoveTo_restores_snapshot_witness :
  MoveTo (mkNav (Some doc) (Some html_) 0)
         (HtmlNavigator (Some (Copy (CreateXPathNavigator (Some doc))))) =
    Ok (true, CreateXPathNavigator (Some doc)).
Proof.
  exact (MoveTo_restores_snapshot H
           [OpMoveToChild; OpMoveToNext; OpMoveToNextAttribute]
           (CreateXPathNavigator (Some doc))
           (mkNav (Some doc) (Some html_) 0) eq_refl).
Defined.

Lemma sideways_from_attribute_witness :
  run H [OpMoveToChild; OpMoveToFirst 3; OpMoveToNext; OpMoveToPrevious]
      (mkNav (Some doc) (Some b) 0) =
    Some (Ok (mkNav (Some doc) (Some b) 0)).
Proof.
  refine (proj1 (sideways_from_attribute H
            [OpMoveToChild; OpMoveToFirst 3; OpMoveToNext; OpMoveToPrevious]
            (mkNav (Some doc) (Some b) 0) _ eq_refl)).
  simpl. lia.
Defined.

Lemma MoveToNext_MoveToPrevious_inverse_witness :
  MoveToNext H (mkNav (Some doc) (Some header) (-1)) =
    Ok (true, mkNav (Some doc) (Some b) (-1)) /\
  MoveToPrevious H (mkNav (Some doc) (Some b) (-1)) =
    Ok (true, mkNav (Some doc) (Some header) (-1)).
Proof.
  edestruct (MoveToNext_MoveToPrevious_inverse H
               (mkNav (Some doc) (Some header) (-1)) header b)
    as [Hfwd _]; [reflexivity..|].
  apply Hfwd. reflexivity.
Defined.

Lemma header_children : children_of H header [text1; logo; h1; text2].
Proof. solve_children. Defined.

Lemma children_enumerated_witness :
  run H (OpMoveToChild :: replicate 2 OpMoveToNext)
      (mkNav (Some doc) (Some header) (-1)) =
    Some (Ok (mkNav (Some doc) (Some h1) (-1))).
Proof.
  refine (proj1 (proj2 (children_enumerated H header [text1; logo; h1; text2]
            (mkNav (Some doc) (Some header) (-1))
            header_children eq_refl eq_refl)) 2%nat h1 eq_refl).
Defined.

Lemma child_then_parent_witness :
  run H (OpMoveToChild :: replicate 3 OpMoveToNext ++ [OpMoveToParent])
      (mkNav (Some doc) (Some header) (-1)) =
    Some (Ok (mkNav (Some doc) (Some header) (-1))).
Proof.
  refine (child_then_parent H header [text1; logo; h1; text2] 3
            (mkNav (Some doc) (Some header) (-1))
            header_children _ eq_refl eq_refl _).
  - intros c nc Hin. each_member Hin;
      vm_compute; intros [= <-]; reflexivity.
  - simpl. lia.
Defined.

Lemma MoveToFirst_is_repeated_MoveToPrevious_witness :
  run H [OpMoveToFirst 2] (mkNav (Some doc) (Some html_) (-1)) =
  run H (replicate 1 OpMoveToPrevious) (mkNav (Some doc) (Some html_) (-1)).
Proof.
  refine (proj2 (proj2 (MoveToFirst_is_repeated_MoveToPrevious H
            [doctype; html_] 1 html_ (mkNav (Some doc) (Some html_) (-1)) 2
            _ eq_refl eq_refl eq_refl)) _ _).
  - simpl. repeat split; eexists; split; reflexivity.
  - discriminate.
  - lia.
Defined.

Lemma attr_stays_in_range_witness :
  attr_in_range H (mkNav (Some doc) (Some doctype) 1).
Proof.
  refine (proj1 (attr_stays_in_range H (Some doc)
            [OpMoveToChild; OpMoveToNextAttribute; OpMoveToNextAttribute]
            (mkNav (Some doc) (Some doctype) 1) _ eq_refl)).
  repeat constructor.
Defined.

Lemma AttributeNode_iff_attr_set_witness :
  NodeType Hplain (mkNav (Some doc) (Some html_) 0) = Ok xpath.AttributeNode
  <-> attr (mkNav (Some doc) (Some html_) 0) <> -1.
Proof.
  refine (AttributeNode_iff_attr_set Hplain (Some doc)
            [OpMoveToChild; OpMoveToNext; OpMoveToNextAttribute]
            (mkNav (Some doc) (Some html_) 0)
            (node (Some doc) (Some head_) (Some body) (Some doctype) None
               html.ElementNode "html" [at_ "lang" "en-US"])
            _ _ eq_refl eq_refl).
  - unfold attrs_on_elements_only. apply (bool_decide_unpack _).
    vm_compute. exact I.
  - repeat constructor.
Defined.

Lemma SelectAttr_first_match_witness :
  SelectAttr H (Some b) "id" = Ok "x".
Proof.
  refine (proj1 (SelectAttr_first_match H (Some b)
            (node (Some body) None None (Some header) None
               html.ElementNode "b" [at_ "attr" "1"; at_ "id" "x"])
            "id" eq_refl)
            [at_ "attr" "1"] (at_ "id" "x") [] eq_refl _ eq_refl).
  constructor; [discriminate|constructor].
Defined.

Lemma attribute_walk_agrees_with_SelectAttr_witness :
  exists hi,
    MoveToNextAttribute_times 2 H (mkNav (Some doc) (Some b) (-1)) =
      Ok ([true; true], hi) /\
    LocalName H hi = Ok "id" /\
    SelectAttr H (Some b) "id" = Ok "x".
Proof.
  destruct (attribute_walk_agrees_with_SelectAttr H
              (mkNav (Some doc) (Some b) (-1))
              (node (Some body) None None (Some header) None
                 html.ElementNode "b" [at_ "attr" "1"; at_ "id" "x"])
              1 (at_ "id" "x") eq_refl eq_refl eq_refl)
    as (hi & Htimes & _ & _ & Hname & _ & Hsel).
  exists hi. split; [exact Htimes|]. split; [exact Hname|].
  apply Hsel. apply (bool_decide_unpack _). vm_compute. exact I.
Defined.

Lemma Value_by_kind_witness :
  Value 12 H (mkNav (Some doc) (Some header) (-1)) =
  InnerText 12 H (Some header).
Proof.
  refine (proj1 (proj2 (Value_by_kind H (mkNav (Some doc) (Some header) (-1))
            header html.ElementNode "header" [] _ 12
            Checks.header_repr eq_refl _ eq_refl eq_refl)) _).
  - vm_compute. repeat constructor.
  - left. reflexivity.
Defined.

Lemma InnerText_of_children_witness :
  exists outs,
    Forall2 (fun c o => InnerText 12 H (Some c) = Some (Ok o))
            [text1; logo; h1; text2] outs /\
    InnerText 12 H (Some header) = Some (Ok (join outs)).
Proof.
  refine (InnerText_of_children H header header_tree
            [text1; logo; h1; text2] 12
            Checks.header_repr eq_refl _ _ _ header_children).
  - discriminate.
  - discriminate.
  - vm_compute. repeat constructor.
Defined.

Lemma Render_appends (escape : string -> string) (fuel : nat) (c : addr)
    (t : tree) (buf o : string) :
  repr H (Some c) t ->
  (weight t <= fuel)%nat ->
  Render escape fuel H "" (Some c) = Some (Ok o) ->
  Render escape fuel H buf (Some c) = Some (Ok (buf +:+ o)).
Proof.
  intros Hr Hw. rewrite !(Render_repr escape H fuel t) by assumption.
  intros [= <-]. reflexivity.
Qed.

Lemma OutputHTML_inner_is_children_outer_witness :
  OutputHTML (Render id 12) 12 H (Some header) false =
    Some (Ok (join [" "; "<!-- Logo -->"; "<h1>City Gallery</h1>"; " "])).
Proof.
  refine (proj1 (OutputHTML_inner_is_children_outer (Render id 12) H header
            [text1; logo; h1; text2]
            [" "; "<!-- Logo -->"; "<h1>City Gallery</h1>"; " "] 12
            header_children _ _ _)).
  - intros buf c o Hin. each_member Hin.
    + apply (Render_appends id 12 text1 (leaf html.TextNode " "));
        [unfold leaf; solve_repr | vm_compute; repeat constructor].
    + apply (Render_appends id 12 logo (leaf html.CommentNode " Logo "));
        [unfold leaf; solve_repr | vm_compute; repeat constructor].
    + apply (Render_appends id 12 h1
               (Tree html.ElementNode "h1" []
                  [leaf html.TextNode "City Gallery"]));
        [unfold leaf; solve_repr | vm_compute; repeat constructor].
    + apply (Render_appends id 12 text2 (leaf html.TextNode " "));
        [unfold leaf; solve_repr | vm_compute; repeat constructor].
  - repeat (constructor; [reflexivity|]). constructor.
  - simpl. lia.
Defined.

(** An engine that answers with the attribute [attr] of [b] and with
    [html], as it would for [//b/@attr | //html]. *)
Lemma facade_agreement_witness :
  FindEach unit (fun _ => inl tt)
    (fun _ _ nav => positions [mkNav (root nav) (Some b) 0;
                               mkNav (root nav) (Some html_) (-1)])
    H (Some doc) "//b/@attr | //html" (fun _ _ n => S n) O =
    Ok (2%nat, None).
Proof.
  refine (proj2 (proj2 (proj2 (facade_agreement unit (fun _ => inl tt)
            (fun _ _ nav => positions [mkNav (root nav) (Some b) 0;
                                       mkNav (root nav) (Some html_) (-1)])
            H (Some doc) "//b/@attr | //html")
            [Some b; Some html_] eq_refl))).
Defined.

End MoreChecks.
